(** * Tailgunner map tools: [tools/parse_wt_maps.py]

    A shallow embedding of the War Thunder map parser and of the two
    writers fed from its result (the JSON database and the generated Rust
    fragment), followed by the properties established about them.

    Conventions of the model.
    - A Python [str] is a list of characters ([text]) over the code
      points 0 to 255.  The classes [\s] and [\d] and the mapping to
      lower case are the ones CPython applies to these code points.  The
      title case of U+00B5 and of U+00FF lies outside this alphabet: the
      model keeps the two characters as they are, and what is stated of
      the case of a name is stated for ASCII names.
    - A Python [float] is a binary64 number ([float] of the Standard
      Library).
    - A raised exception is the [Raise] outcome of the [result] monad.
    - A Python [dict] is an association list in insertion order. *)

From Stdlib Require Import ZArith List String Ascii Bool Floats Lia.
From Stdlib Require Import Permutation.
Import ListNotations.

Open Scope Z_scope.
Open Scope list_scope.

(** ** Text *)

Definition text := list ascii.

(** String literals of the source, as [text]. *)
Definition T (s : string) : text := list_ascii_of_string s.

Definition code (c : ascii) : Z := Z.of_N (N_of_ascii c).

Definition chr (n : Z) : ascii := ascii_of_N (Z.to_N n).

Definition nl : ascii := chr 10.

Definition is_digit (c : ascii) : bool :=
  (48 <=? code c) && (code c <=? 57).

(** [\s] of [re] on [str] patterns: TAB, LF, VT, FF, CR, FS, GS, RS, US,
    the space, NEL (U+0085) and the no-break space (U+00A0). *)
Definition is_space (c : ascii) : bool :=
  ((9 <=? code c) && (code c <=? 13))
  || ((28 <=? code c) && (code c <=? 31))
  || (code c =? 32) || (code c =? 133) || (code c =? 160).

(** The characters that have a lower case of their own: A to Z and the
    capital letters U+00C0 to U+00DE (the sign U+00D7 is none). *)
Definition is_upper (c : ascii) : bool :=
  ((65 <=? code c) && (code c <=? 90))
  || ((192 <=? code c) && (code c <=? 222) && negb (code c =? 215)).

(** The characters whose upper case is one character of the alphabet: a
    to z and the small letters U+00E0 to U+00FE (the sign U+00F7 is
    none). *)
Definition is_lower (c : ascii) : bool :=
  ((97 <=? code c) && (code c <=? 122))
  || ((224 <=? code c) && (code c <=? 254) && negb (code c =? 247)).

(** The cased characters: the letters above, the ordinal indicators
    U+00AA and U+00BA, the micro sign U+00B5, the sharp s U+00DF and
    U+00FF. *)
Definition is_cased (c : ascii) : bool :=
  is_upper c || is_lower c
  || (code c =? 170) || (code c =? 181) || (code c =? 186)
  || (code c =? 223) || (code c =? 255).

Definition is_ascii (c : ascii) : bool := code c <? 128.

Definition lower_char (c : ascii) : ascii :=
  if is_upper c then chr (code c + 32) else c.

Definition upper_char (c : ascii) : ascii :=
  if is_lower c then chr (code c - 32) else c.

(** The title case of one character: its upper case, and [Ss] for the
    sharp s; U+00B5 and U+00FF, whose title case is no character of the
    alphabet, are kept. *)
Definition title_char (c : ascii) : list ascii :=
  if code c =? 223 then ["S"%char; "s"%char] else [upper_char c].

(** [str.lower()] *)
Definition lower (s : text) : text := map lower_char s.

Fixpoint text_eqb (a b : text) : bool :=
  match a, b with
  | [], [] => true
  | x :: a', y :: b' => Ascii.eqb x y && text_eqb a' b'
  | _, _ => false
  end.

(** [s.startswith(p)] *)
Fixpoint starts_with (p s : text) : bool :=
  match p, s with
  | [], _ => true
  | x :: p', y :: s' => Ascii.eqb x y && starts_with p' s'
  | _ :: _, [] => false
  end.

(** [needle in hay] on strings: substring test. *)
Fixpoint contains (needle hay : text) : bool :=
  starts_with needle hay
  || match hay with
     | [] => false
     | _ :: hay' => contains needle hay'
     end.

(** Longest prefix of [s] whose characters satisfy [p], and the rest. *)
Fixpoint span (p : ascii -> bool) (s : text) : text * text :=
  match s with
  | [] => ([], [])
  | c :: s' =>
      if p c then let (a, b) := span p s' in (c :: a, b) else ([], s)
  end.

(** ** Exceptions *)

Inductive exn := ValueError | OSError.

Inductive result (A : Type) : Type :=
| Return (a : A)
| Raise (e : exn).

Arguments Return {A} a.
Arguments Raise {A} e.

Definition bind {A B} (r : result A) (k : A -> result B) : result B :=
  match r with
  | Return a => k a
  | Raise e => Raise e
  end.

Notation "x <- r ;; k" := (bind r (fun x => k))
  (at level 61, r at next level, right associativity).

(** [try: body  except Exception: handler] *)
Definition try_except {A} (body : result A) (handler : exn -> result A)
  : result A :=
  match body with
  | Return a => Return a
  | Raise e => handler e
  end.

(** ** Floats *)

(** The binary64 number nearest to [n / d] (ties to even), for [0 <= n]
    and [0 < d]: the quotient is taken with 64 extra bits and a sticky
    bit, then rounded once. *)
Definition round_ratio (n d : Z) : float :=
  let s := Z.log2 d + 64 in
  let q := (n * 2 ^ s) / d in
  let r := (n * 2 ^ s) mod d in
  let m := 2 * q + (if r =? 0 then 0 else 1) in
  SF2Prim (binary_normalize 53 1024 m (- s - 1) false).

Definition digit_val (c : ascii) : Z := code c - 48.

(** Value of a string of decimal digits. *)
Definition digits_val (s : text) : Z :=
  fold_left (fun acc c => 10 * acc + digit_val c) s 0.

Definition is_nil {A} (l : list A) : bool :=
  match l with [] => true | _ => false end.

(** [float(s)] for a string over the alphabet of digits and the dot, the
    only strings the patterns below capture: digits with at most one
    dot and at least one digit convert, anything else is a ValueError. *)
Definition py_float (s : text) : result float :=
  let (ip, rest) := span is_digit s in
  match rest with
  | [] =>
      if is_nil ip then Raise ValueError
      else Return (round_ratio (digits_val ip) 1)
  | c :: fp =>
      if Ascii.eqb c "."%char then
        let (fd, rest') := span is_digit fp in
        if is_nil rest' && negb (is_nil ip && is_nil fd) then
          Return (round_ratio (digits_val (ip ++ fd))
                              (10 ^ Z.of_nat (List.length fd)))
        else Raise ValueError
      else Raise ValueError
  end.

(** Truth value of a float: [bool(x)] is [x != 0.0]. *)
Definition float_truthy (x : float) : bool := negb (PrimFloat.eqb x 0%float).

(** ** The pattern language of the extractor

    The four patterns of [parse_blk_file] are sequences of literal
    characters, [\s*], and the capturing group [([\d.]+)].  [match_here]
    is a backtracking matcher anchored at the start of its input:
    quantifiers are greedy and give characters back when the rest of the
    pattern fails, as [re] does.  It returns the captured groups. *)

Inductive char_class := Space | DigitDot.

Definition in_class (k : char_class) (c : ascii) : bool :=
  match k with
  | Space => is_space c
  | DigitDot => is_digit c || Ascii.eqb c "."%char
  end.

Inductive atom :=
| Chr (c : ascii)          (* a literal character *)
| Star (k : char_class)    (* k*  *)
| Group (k : char_class).  (* (k+) *)

Definition regex := list atom.

Definition groups := list text.

Fixpoint star (k : char_class) (cont : text -> option groups) (s : text)
  : option groups :=
  match s with
  | c :: s' =>
      if in_class k c then
        match star k cont s' with
        | Some g => Some g
        | None => cont s
        end
      else cont s
  | [] => cont s
  end.

Fixpoint group_more (k : char_class) (cont : text -> option groups)
  (acc : text) (s : text) : option groups :=
  match s with
  | c :: s' =>
      if in_class k c then
        match group_more k cont (acc ++ [c]) s' with
        | Some g => Some g
        | None => option_map (cons acc) (cont s)
        end
      else option_map (cons acc) (cont s)
  | [] => option_map (cons acc) (cont s)
  end.

Fixpoint match_here (r : regex) : text -> option groups :=
  match r with
  | [] => fun _ => Some []
  | Chr c :: r' =>
      fun s =>
        match s with
        | x :: s' => if Ascii.eqb x c then match_here r' s' else None
        | [] => None
        end
  | Star k :: r' => star k (match_here r')
  | Group k :: r' =>
      fun s =>
        match s with
        | x :: s' =>
            if in_class k x then group_more k (match_here r') [x] s'
            else None
        | [] => None
        end
  end.

(** [re.search(r, s)]: the match at the leftmost position that has one. *)
Fixpoint search (r : regex) (s : text) : option groups :=
  match match_here r s with
  | Some g => Some g
  | None =>
      match s with
      | [] => None
      | _ :: s' => search r s'
      end
  end.

(** [m.group(i)], [i >= 1]. *)
Definition group (m : groups) (i : nat) : text := nth (i - 1) m [].

Definition lit (s : string) : regex := map Chr (T s).

(** [r'mapSize\s*:\s*\[\s*([\d.]+)\s*,\s*([\d.]+)\s*\]'] *)
Definition size_re : regex :=
  lit "mapSize"
  ++ [Star Space; Chr ":"; Star Space; Chr "["; Star Space; Group DigitDot;
      Star Space; Chr ","; Star Space; Group DigitDot; Star Space; Chr "]"].

Definition step_re (key : string) : regex :=
  lit key ++ [Star Space; Chr ":"; Star Space; Group DigitDot].

(** [r'gridStep\s*:\s*([\d.]+)'] *)
Definition ground_re : regex := step_re "gridStep".

(** [r'airGridStep\s*:\s*([\d.]+)'] *)
Definition air_re : regex := step_re "airGridStep".

(** [r'navalGridStep\s*:\s*([\d.]+)'] *)
Definition naval_re : regex := step_re "navalGridStep".

(** ** [parse_blk_file] *)

(** What [open(file_path, ...)] and [f.read()] give: the decoded content
    ([errors='ignore'] never fails to decode), or an OSError. *)
Inductive blk_file :=
| Unreadable
| Readable (content : text).

Definition read_file (f : blk_file) : result text :=
  match f with
  | Unreadable => Raise OSError
  | Readable content => Return content
  end.

(** The dictionary [data] when the function returns it, [game_modes] is
    always set; the optional keys are the four [option] fields. *)
Record blk_data := mk_blk_data {
  map_size : option (float * float);
  ground_grid_step : option float;
  air_grid_step : option float;
  naval_grid_step : option float;
  game_modes : list text
}.

Definition extract_size (content : text) : result (option (float * float)) :=
  match search size_re content with
  | Some size_match =>
      w <- py_float (group size_match 1) ;;
      h <- py_float (group size_match 2) ;;
      Return (Some (w, h))
  | None => Return None
  end.

Definition extract_step (r : regex) (content : text) : result (option float) :=
  match search r content with
  | Some m => x <- py_float (group m 1) ;; Return (Some x)
  | None => Return None
  end.

Definition detect_modes (content : text) : list text :=
  let modes :=
    (if contains (T "ground") (lower content)
        || contains (T "tank") (lower content)
     then [T "ground"] else [])
    ++ (if contains (T "air") (lower content) then [T "air"] else [])
    ++ (if contains (T "naval") (lower content) then [T "naval"] else []) in
  if is_nil modes then [T "unknown"] else modes.

(** The body of the [try] block, on the content read. *)
Definition parse_blk_text (content : text) : result blk_data :=
  size <- extract_size content ;;
  ground <- extract_step ground_re content ;;
  air <- extract_step air_re content ;;
  naval <- extract_step naval_re content ;;
  Return (mk_blk_data size ground air naval (detect_modes content)).

(** [parse_blk_file]: the result is [Some data], or [None] for the empty
    dictionary [{}] of the [except] branch. *)
Definition parse_blk_file (f : blk_file) : result (option blk_data) :=
  try_except
    (content <- read_file f ;;
     data <- parse_blk_text content ;;
     Return (Some data))
    (fun _ => Return None).

(** ** String helpers of the record builder and the writers *)

(** [s.replace(old, new)]: occurrences of [old] are replaced from left
    to right, the scan resuming after each replaced occurrence.  [skip]
    counts the characters of the current occurrence still to be dropped. *)
Fixpoint replace_from (old new : text) (skip : nat) (s : text) : text :=
  match s with
  | [] => []
  | c :: s' =>
      match skip with
      | S n => replace_from old new n s'
      | O =>
          if starts_with old s
          then new ++ replace_from old new (List.length old - 1) s'
          else c :: replace_from old new O s'
      end
  end.

(** For the empty [old], Python inserts [new] before every character and
    at the end. *)
Definition replace (old new s : text) : text :=
  match old with
  | [] => new ++ flat_map (fun c => c :: new) s
  | _ :: _ => replace_from old new O s
  end.

(** [s.title()]: a character is put in title case after an uncased one
    (or at the start) and in lower case after a cased one. *)
Fixpoint title_from (previous_is_cased : bool) (s : text) : text :=
  match s with
  | [] => []
  | c :: s' =>
      (if previous_is_cased then [lower_char c] else title_char c)
      ++ title_from (is_cased c) s'
  end.

Definition title (s : text) : text := title_from false s.

(** [sep.join(l)] *)
Fixpoint join (sep : text) (l : list text) : text :=
  match l with
  | [] => []
  | [x] => x
  | x :: l' => x ++ sep ++ join sep l'
  end.

(** Comparison of strings: lexicographic on code points. *)
Fixpoint text_ltb (a b : text) : bool :=
  match a, b with
  | _, [] => false
  | [], _ :: _ => true
  | x :: a', y :: b' =>
      (code x <? code y) || ((code x =? code y) && text_ltb a' b')
  end.

Definition text_leb (a b : text) : bool := negb (text_ltb b a).

(** Decimal digits of a non-negative integer, [str(n)]. *)
Fixpoint decimal_from (fuel : nat) (n : Z) (acc : text) : text :=
  let acc' := chr (48 + n mod 10) :: acc in
  match fuel with
  | O => acc'
  | S fuel' => if n / 10 =? 0 then acc' else decimal_from fuel' (n / 10) acc'
  end.

Definition decimal (n : Z) : text :=
  decimal_from (Z.to_nat (Z.log2 n)) n [].

(** ** Dictionaries *)

Definition dict (V : Type) := list (text * V).

Fixpoint dict_get {V} (d : dict V) (k : text) : option V :=
  match d with
  | [] => None
  | (k', v) :: d' => if text_eqb k' k then Some v else dict_get d' k
  end.

(** [d[k] = v]: an existing key keeps its position, a new one goes last. *)
Fixpoint dict_set {V} (d : dict V) (k : text) (v : V) : dict V :=
  match d with
  | [] => [(k, v)]
  | (k', v') :: d' =>
      if text_eqb k' k then (k', v) :: d' else (k', v') :: dict_set d' k v
  end.

Definition keys {V} (d : dict V) : list text := map fst d.

(** [sorted(d.items())]: the keys of a dictionary are distinct, so the
    order of the pairs is the order of their keys. *)
Fixpoint insert_sorted {V} (p : text * V) (l : list (text * V))
  : list (text * V) :=
  match l with
  | [] => [p]
  | q :: l' =>
      if text_leb (fst p) (fst q) then p :: l else q :: insert_sorted p l'
  end.

Fixpoint sorted_items {V} (d : dict V) : list (text * V) :=
  match d with
  | [] => []
  | p :: d' => insert_sorted p (sorted_items d')
  end.

(** ** [extract_all_maps] *)

(** One entry of [levels_path.iterdir()]: its name, whether it is a
    directory, and its [level.blk] when that file exists. *)
Record level_dir := mk_level_dir {
  dir_name : text;
  is_dir : bool;
  level_blk : option blk_file
}.

(** A value of the dictionary [maps]: the two names and the keys of
    [**map_data]. *)
Record map_info := mk_map_info {
  name : text;
  localized_name : text;
  data : blk_data
}.

(** [map_name.replace('avg_', '').replace('_', ' ').title()] *)
Definition clean_name (map_name : text) : text :=
  title (replace (T "_") (T " ") (replace (T "avg_") [] map_name)).

(** One iteration of the loop over the level directories. *)
Definition visit_level (maps : dict map_info) (level : level_dir)
  : result (dict map_info) :=
  if negb (is_dir level) then Return maps
  else
    match level_blk level with
    | None => Return maps
    | Some blk =>
        let map_name := dir_name level in
        map_data <- parse_blk_file blk ;;
        match map_data with
        | Some d =>
            Return (dict_set maps map_name
                      (mk_map_info map_name (clean_name map_name) d))
        | None => Return maps
        end
    end.

Fixpoint visit_levels (maps : dict map_info) (levels : list level_dir)
  : result (dict map_info) :=
  match levels with
  | [] => Return maps
  | level :: rest =>
      maps' <- visit_level maps level ;;
      visit_levels maps' rest
  end.

(** [extract_all_maps]: [levels] is [None] when [content/levels] does not
    exist, else the directory entries in the order [iterdir] yields them. *)
Definition extract_all_maps (levels : option (list level_dir))
  : result (dict map_info) :=
  match levels with
  | None => Return []
  | Some entries => visit_levels [] entries
  end.

(** ** [repr] of a float

    [repr(x)], which is also [str(x)] and what an f-string field prints:
    the shortest string of decimal digits that reads back as [x], the
    closest to [x] among the shortest, laid out in positional notation
    when the decimal point position is in (-4, 16] and in exponent
    notation otherwise. *)

(** [num / den < 10 ^ k] *)
Definition lt_pow10 (num den k : Z) : bool :=
  if 0 <=? k then num <? den * 10 ^ k else num * 10 ^ (- k) <? den.

(** The decimal point position of [num / den > 0]: the least [k] with
    [num / den < 10 ^ k], sought around the estimate the binary
    logarithms give. *)
Definition decpt_of (num den : Z) : Z :=
  let k0 := ((Z.log2 num - Z.log2 den) * 30103) / 100000 in
  let candidates := map (fun i => k0 - 2 + Z.of_nat i) (seq 0 6) in
  match find (lt_pow10 num den) candidates with
  | Some k => k
  | None => k0 + 3
  end.

(** The float nearest to [d * 10 ^ (- p)]. *)
Definition float_of_scaled (d p : Z) : float :=
  if 0 <=? p then round_ratio d (10 ^ p) else round_ratio (d * 10 ^ (- p)) 1.

(** The integer [d] of [n] digits (or [10 ^ n]) for which [d * 10 ^ (decpt - n)]
    is nearest to [num / den] among those that read back as [x], if any. *)
Definition digits_at (x : float) (num den decpt : Z) (n : Z) : option Z :=
  let p := n - decpt in
  let sn := if 0 <=? p then num * 10 ^ p else num in
  let sd := if 0 <=? p then den else den * 10 ^ (- p) in
  let lo := sn / sd in
  let hi := lo + 1 in
  let lo_ok := PrimFloat.eqb (float_of_scaled lo p) x in
  let hi_ok := PrimFloat.eqb (float_of_scaled hi p) x in
  if lo_ok && hi_ok then
    match 2 * (sn mod sd) ?= sd with
    | Lt => Some lo
    | Gt => Some hi
    | Eq => Some (if Z.even lo then lo else hi)
    end
  else if lo_ok then Some lo
  else if hi_ok then Some hi
  else None.

Fixpoint shortest_digits (x : float) (num den decpt : Z) (fuel : nat) (n : Z)
  : Z * Z :=
  match digits_at x num den decpt n, fuel with
  | Some d, _ => (d, n)
  | None, S fuel' => shortest_digits x num den decpt fuel' (n + 1)
  | None, O => (num * 10 ^ (n - decpt) / den, n)
  end.

Fixpoint strip_zeros_rev (r : text) : text :=
  match r with
  | c :: r' => if Ascii.eqb c "0"%char then strip_zeros_rev r' else r
  | [] => []
  end.

Definition strip_trailing_zeros (s : text) : text :=
  rev (strip_zeros_rev (rev s)).

Definition zeros (n : Z) : text := repeat "0"%char (Z.to_nat n).

(** Layout of the digits [digits] with the decimal point at [decpt]. *)
Definition format_repr (digits : text) (decpt : Z) : text :=
  let len := Z.of_nat (List.length digits) in
  if (-4 <? decpt) && (decpt <=? 16) then
    if decpt <=? 0 then T "0." ++ zeros (- decpt) ++ digits
    else if len <=? decpt then digits ++ zeros (decpt - len) ++ T ".0"
    else firstn (Z.to_nat decpt) digits ++ T "."
         ++ skipn (Z.to_nat decpt) digits
  else
    let e := decpt - 1 in
    let mantissa :=
      match digits with
      | d :: (_ :: _) as more => d :: T "." ++ more
      | _ => digits
      end in
    let ed := decimal (Z.abs e) in
    mantissa ++ T "e" ++ (if e <? 0 then T "-" else T "+")
    ++ (if Z.of_nat (List.length ed) <? 2 then T "0" else []) ++ ed.

Definition py_repr (x : float) : text :=
  match Prim2SF x with
  | S754_nan => T "nan"
  | S754_infinity s => if s then T "-inf" else T "inf"
  | S754_zero s => if s then T "-0.0" else T "0.0"
  | S754_finite s m e =>
      let num := if 0 <=? e then Zpos m * 2 ^ e else Zpos m in
      let den := if 0 <=? e then 1 else 2 ^ (- e) in
      let decpt := decpt_of num den in
      let (d, n) := shortest_digits (abs x) num den decpt 16 1 in
      let all := decimal d in
      let decpt' := decpt + (Z.of_nat (List.length all) - n) in
      (if s then T "-" else [])
      ++ format_repr (strip_trailing_zeros all) decpt'
  end.

(** ** [generate_rust_code] *)

Definition dq : ascii := chr 34.

(** [f"Some({step})" if step else "None"], with [step = data.get(key)]:
    the condition is the truth value of [step], false for an absent key
    ([None]) and for a zero. *)
Definition rust_option (step : option float) : text :=
  match step with
  | Some x =>
      if float_truthy x then T "Some(" ++ py_repr x ++ T ")" else T "None"
  | None => T "None"
  end.

(** [f'"{m}".to_string()'] *)
Definition rust_string (m : text) : text := [dq] ++ m ++ [dq] ++ T ".to_string()".

(** The block appended to [code] for one item of [sorted(maps.items())]. *)
Definition rust_entry (item : text * map_info) : text :=
  let (map_name, info) := item in
  let ground_step := ground_grid_step (data info) in
  let air_step := air_grid_step (data info) in
  let naval_step := naval_grid_step (data info) in
  let map_size :=
    match map_size (data info) with
    | Some size => size
    | None => (4096%float, 4096%float)
    end in
  [nl]
  ++ T "        // " ++ localized_name info ++ [nl]
  ++ T "        self.maps.insert(" ++ rust_string map_name
  ++ T ", MapGridInfo {" ++ [nl]
  ++ T "            name: " ++ rust_string map_name ++ T "," ++ [nl]
  ++ T "            localized_name: " ++ rust_string (localized_name info)
  ++ T "," ++ [nl]
  ++ T "            ground_grid_step: " ++ rust_option ground_step ++ T ","
  ++ [nl]
  ++ T "            air_grid_step: " ++ rust_option air_step ++ T "," ++ [nl]
  ++ T "            naval_grid_step: " ++ rust_option naval_step ++ T ","
  ++ [nl]
  ++ T "            map_size: [" ++ py_repr (fst map_size) ++ T ", "
  ++ py_repr (snd map_size) ++ T "]," ++ [nl]
  ++ T "            game_modes: vec!["
  ++ join (T ", ") (map rust_string (game_modes (data info))) ++ T "],"
  ++ [nl]
  ++ T "        });".

Definition generate_rust_code (maps : dict map_info) : text :=
  join [nl] (map rust_entry (sorted_items maps)).

(** The map names in the order [generate_rust_code] writes their blocks. *)
Definition rust_order (maps : dict map_info) : list text :=
  keys (sorted_items maps).

(** ** [json.dump(maps, f, indent=2, ensure_ascii=False)] *)

#[local] Set Warnings "-register-all".

(** The Python values the encoder meets and the decoder builds. *)
Inductive pyval :=
| PNone
| PBool (b : bool)
| PInt (n : Z)
| PFloat (x : float)
| PStr (s : text)
| PList (l : list pyval)
| PDict (d : list (text * pyval)).

Definition hex_digit (n : Z) : ascii :=
  if n <? 10 then chr (48 + n) else chr (87 + n).

(** The replacement of one character inside a JSON string
    ([ESCAPE_DCT] of [json.encoder]). *)
Definition json_escape_char (c : ascii) : text :=
  let n := code c in
  if n =? 34 then T "\" ++ [dq]
  else if n =? 92 then T "\\"
  else if n =? 10 then T "\n"
  else if n =? 13 then T "\r"
  else if n =? 9 then T "\t"
  else if n =? 12 then T "\f"
  else if n =? 8 then T "\b"
  else if n <? 32 then T "\u00" ++ [hex_digit (n / 16); hex_digit (n mod 16)]
  else [c].

(** [encode_basestring] *)
Definition json_string (s : text) : text :=
  [dq] ++ flat_map json_escape_char s ++ [dq].

(** [floatstr] *)
Definition json_float (x : float) : text :=
  match Prim2SF x with
  | S754_nan => T "NaN"
  | S754_infinity s => if s then T "-Infinity" else T "Infinity"
  | _ => py_repr x
  end.

(** ['\n' + ' ' * (indent * level)] with [indent = 2] *)
Definition newline_indent (level : nat) : text := nl :: repeat " "%char (2 * level).

Definition json_int (n : Z) : text :=
  if n <? 0 then T "-" ++ decimal (- n) else decimal n.

(** [_iterencode] at nesting depth [level]. *)
Fixpoint json_encode (level : nat) (v : pyval) {struct v} : text :=
  match v with
  | PNone => T "null"
  | PBool b => if b then T "true" else T "false"
  | PInt n => json_int n
  | PFloat x => json_float x
  | PStr s => json_string s
  | PList l =>
      match l with
      | [] => T "[]"
      | _ :: _ =>
          T "[" ++ newline_indent (S level)
          ++ join (T "," ++ newline_indent (S level))
                  (map (json_encode (S level)) l)
          ++ newline_indent level ++ T "]"
      end
  | PDict d =>
      match d with
      | [] => T "{}"
      | _ :: _ =>
          T "{" ++ newline_indent (S level)
          ++ join (T "," ++ newline_indent (S level))
                  (map (fun kv => json_string (fst kv) ++ T ": "
                                  ++ json_encode (S level) (snd kv)) d)
          ++ newline_indent level ++ T "}"
      end
  end.

Definition json_dumps (v : pyval) : text := json_encode 0 v.

Definition optional_key {A} (key : string) (f : A -> pyval) (o : option A)
  : list (text * pyval) :=
  match o with
  | Some a => [(T key, f a)]
  | None => []
  end.

(** The dictionary [{'name': ..., 'localized_name': ..., **map_data}] as a
    Python value, its keys in insertion order. *)
Definition info_value (info : map_info) : pyval :=
  PDict
    ([(T "name", PStr (name info));
      (T "localized_name", PStr (localized_name info))]
     ++ optional_key "map_size"
          (fun size => PList [PFloat (fst size); PFloat (snd size)])
          (map_size (data info))
     ++ optional_key "ground_grid_step" PFloat (ground_grid_step (data info))
     ++ optional_key "air_grid_step" PFloat (air_grid_step (data info))
     ++ optional_key "naval_grid_step" PFloat (naval_grid_step (data info))
     ++ [(T "game_modes", PList (map PStr (game_modes (data info))))]).

Definition maps_value (maps : dict map_info) : pyval :=
  PDict (map (fun kv => (fst kv, info_value (snd kv))) maps).

(** The text written to [wt_maps_database.json]. *)
Definition json_dump (maps : dict map_info) : text :=
  json_dumps (maps_value maps).

(** The map names in the order the JSON document lists them: the encoder
    walks the dictionary in its own order (no [sort_keys]). *)
Definition json_order (maps : dict map_info) : list text := keys maps.

(** ** [main] *)





(** ** [json.load]: the decoder that reads the document back

    [scan_once], [JSONArray], [JSONObject] and [py_scanstring] of
    [json.decoder] and [json.scanner].  A decoding error is [None].  The
    functions work on the text that remains to be read and return what is
    left after the value.  The recursion on nested values is bounded by
    [fuel]; [json_loads] gives it the length of the document. *)














(** ** The display name as the specification words it

    Strip the prefix token from the front of the identifier, replace the
    separators with spaces, title-case. *)

Definition strip_prefix (p s : text) : text :=
  if starts_with p s then skipn (List.length p) s else s.

Definition display_name_spec (identifier : text) : text :=
  title (replace (T "_") (T " ") (strip_prefix (T "avg_") identifier)).

(** ** Key tokens inside one another

    The occurrence of [key] at offset [length a] of [content] lies inside
    an occurrence of the token [tok]. *)

Definition inside_token (tok key content a : text) : Prop :=
  exists pre post,
    content = pre ++ tok ++ post
    /\ (List.length pre <= List.length a)%nat
    /\ (List.length a + List.length key
        <= List.length pre + List.length tok)%nat.

(** The text has no ground-step key token of its own: wherever
    [gridStep] occurs, it is inside an occurrence of the air or of the
    naval key token. *)
Definition no_separate_ground_key (content : text) : Prop :=
  forall a b,
    content = a ++ T "gridStep" ++ b ->
    inside_token (T "airGridStep") (T "gridStep") content a
    \/ inside_token (T "navalGridStep") (T "gridStep") content a.

(** ** Decimal lexemes

    A string of digits and dots is a decimal lexeme when it has at most
    one dot and at least one digit. *)

Definition is_dot (c : ascii) : bool := Ascii.eqb c "."%char.

Definition dots (s : text) : nat := List.length (filter is_dot s).

Definition decimal_lexeme (s : text) : bool :=
  (dots s <=? 1)%nat && existsb is_digit s.

Definition converts (s : text) : Prop := exists x, py_float s = Return x.

(** The four numeric patterns of the extractor. *)
Definition numeric_patterns : list regex :=
  [size_re; ground_re; air_re; naval_re].

(** The record one directory entry contributes to [maps], if any: what
    [visit_level] stores under the entry's name. *)
Definition level_record (level : level_dir) : option map_info :=
  if is_dir level then
    match level_blk level with
    | Some blk =>
        match parse_blk_file blk with
        | Return (Some d) =>
            Some (mk_map_info (dir_name level) (clean_name (dir_name level)) d)
        | _ => None
        end
    | None => None
    end
  else None.

(** The record of a map whose config file gave no field at all. *)
Definition unknown_record (map_name : text) : map_info :=
  mk_map_info map_name (clean_name map_name)
    (mk_blk_data None None None None [T "unknown"]).

(** ** Values that read back *)




(** The floats of a record, and the collections whose floats are all
    numbers. *)
Definition info_floats (info : map_info) : list float :=
  match map_size (data info) with
  | Some (w, h) => [w; h]
  | None => []
  end
  ++ match ground_grid_step (data info) with Some x => [x] | None => [] end
  ++ match air_grid_step (data info) with Some x => [x] | None => [] end
  ++ match naval_grid_step (data info) with Some x => [x] | None => [] end.

Definition numbers_only (maps : dict map_info) : Prop :=
  Forall (fun kv => Forall (fun x => PrimFloat.eqb x x = true)
                      (info_floats (snd kv))) maps.






(** The keys of [l] are in ascending order. *)
Inductive ascending {V} : list (text * V) -> Prop :=
| ascending_nil : ascending []
| ascending_one p : ascending [p]
| ascending_cons p q l :
    text_leb (fst p) (fst q) = true -> ascending (q :: l) ->
    ascending (p :: q :: l).

(** ** Further notions used by the properties *)

(** The values [game_modes] can take. *)
Definition mode_lists : list (list text) :=
  [[T "unknown"]; [T "ground"]; [T "air"]; [T "naval"];
   [T "ground"; T "air"]; [T "ground"; T "naval"]; [T "air"; T "naval"];
   [T "ground"; T "air"; T "naval"]].

(** The text does not start with a character of the class [k]. *)
Definition head_not (k : char_class) (s : text) : Prop :=
  match s with
  | [] => True
  | c :: _ => in_class k c = false
  end.

(** [key] does not occur at an offset inside [pre] of a text that starts
    with [pre ++ key]. *)
Definition not_before (key pre : text) : Prop :=
  contains key (pre ++ removelast key) = false.

(** The items the directory entries contribute to [maps], in the order of
    the entries. *)
Definition level_items (levels : list level_dir) : list (text * map_info) :=
  flat_map (fun level =>
              match level_record level with
              | Some r => [(dir_name level, r)]
              | None => []
              end) levels.

(** ** [main]: the statistics

    [[m for m in maps.values() if mode in m['game_modes']]] *)

Definition values {V} (d : dict V) : list V := map snd d.

Definition has_mode (mode : string) (m : map_info) : bool :=
  existsb (text_eqb (T mode)) (game_modes (data m)).

Definition ground_maps (maps : dict map_info) : list map_info :=
  filter (has_mode "ground") (values maps).

Definition air_maps (maps : dict map_info) : list map_info :=
  filter (has_mode "air") (values maps).

Definition naval_maps (maps : dict map_info) : list map_info :=
  filter (has_mode "naval") (values maps).

(** The three counts [main] prints. *)
Definition statistics (maps : dict map_info) : nat * nat * nat :=
  (List.length (ground_maps maps), List.length (air_maps maps),
   List.length (naval_maps maps)).

(** The entry gives a record. *)
Definition contributes (level : level_dir) : bool :=
  match level_record level with
  | Some _ => true
  | None => false
  end.

(** ** [find_wt_installation]

    A path is the text it is built from; [exists_] is [path.exists()] on
    the file system at hand and [home_games] the path
    [Path.home() / "Games" / "War Thunder"]. *)

(** [common_paths] of [parse_wt_maps.py] *)
Definition common_paths (home_games : text) : list text :=
  [T "C:\Program Files (x86)\Steam\steamapps\common\War Thunder";
   T "D:\SteamLibrary\steamapps\common\War Thunder";
   T "E:\Games\War Thunder";
   home_games].

(** [find_wt_installation] of [parse_wt_maps.py]: the first candidate
    that exists. *)
Definition find_wt_installation (exists_ : text -> bool) (home_games : text)
  : option text :=
  find exists_ (common_paths home_games).

(** [common_paths] of [check_map_image.py] *)
Definition checker_common_paths (home_games : text) : list text :=
  [T "C:\Program Files (x86)\Steam\steamapps\common\War Thunder";
   T "C:\Program Files\Steam\steamapps\common\War Thunder";
   T "D:\SteamLibrary\steamapps\common\War Thunder";
   T "D:\Steam\steamapps\common\War Thunder";
   T "E:\SteamLibrary\steamapps\common\War Thunder";
   T "E:\Games\War Thunder";
   T "F:\Games\War Thunder";
   T "G:\Games\War Thunder";
   home_games;
   T "C:\Games\War Thunder"].

(** [find_wt_installation] of [check_map_image.py] *)
Definition checker_find_wt_installation (exists_ : text -> bool)
  (home_games : text) : option text :=
  find exists_ (checker_common_paths home_games).

(** ** [check_map_image.py]: the comparison of the images

    An image file is its path and its bytes, or [None] when opening or
    reading it raises (the loop passes over it).  [sha256] is
    [calculate_hash], the hexadecimal digest of the data.  The result is
    the list [matches] and the paths reported as having the size of the
    API image with another hash. *)

Definition image_file : Type := text * option (list Byte.byte).

Fixpoint compare_images (sha256 : list Byte.byte -> text) (api_hash : text)
  (api_size : nat) (images : list image_file) : list text * list text :=
  match images with
  | [] => ([], [])
  | (img_path, file) :: rest =>
      let (matches, same_size) :=
        compare_images sha256 api_hash api_size rest in
      match file with
      | None => (matches, same_size)
      | Some img_data =>
          if text_eqb (sha256 img_data) api_hash
          then (img_path :: matches, same_size)
          else if Nat.eqb (List.length img_data) api_size
          then (matches, img_path :: same_size)
          else (matches, same_size)
      end
  end.

(** [main] of [check_map_image.py]: [api_image] is what
    [get_api_map_image] returns ([None] on failure), [wt_exists] whether
    the installation path exists, [images] the files [find_map_images]
    finds there.  The result is [None] when [main] returns before the
    comparison; [if not api_image] also holds for empty data. *)
Definition checker_main (sha256 : list Byte.byte -> text)
  (api_image : option (list Byte.byte)) (wt_exists : bool)
  (images : list image_file) : option (list text * list text) :=
  match api_image with
  | None => None
  | Some [] => None
  | Some api =>
      if wt_exists
      then Some (compare_images sha256 (sha256 api) (List.length api) images)
      else None
  end.

(** ** Rounding, as the properties state it

    [round_half_even a b] is the integer nearest to [a / b], the even one
    of the two when [a / b] lies halfway; [finish m e] is the binary64
    number [m * 2 ^ e] once [m] has been rounded to at most 53 bits, with
    the carry into the next binade and the overflow to infinity. *)

Definition round_half_even (a b : Z) : Z :=
  let q := a / b in
  match 2 * (a mod b) ?= b with
  | Lt => q
  | Eq => if Z.even q then q else q + 1
  | Gt => q + 1
  end.

Definition finish (M e : Z) : spec_float :=
  match M with
  | Zpos p =>
      if M =? 2 ^ 53 then
        if e + 1 <=? 971 then S754_finite false 4503599627370496%positive (e + 1)
        else S754_infinity false
      else if e <=? 971 then S754_finite false p e
      else S754_infinity false
  | _ => S754_zero false
  end.


(** A string of decimal digits. *)
Definition digits (s : text) : Prop := forallb is_digit s = true.





(** * Properties *)

(** ** Text *)

Lemma text_eqb_eq (a b : text) : text_eqb a b = true <-> a = b.
Proof.
  revert b; induction a as [|x a IH]; intros [|y b]; simpl;
    try (split; [discriminate | congruence]); try tauto.
  rewrite andb_true_iff, Ascii.eqb_eq, IH.
  split; [intros [-> ->]; reflexivity | intros H; inversion H; auto].
Qed.

Lemma text_eqb_refl (a : text) : text_eqb a a = true.
Proof. apply text_eqb_eq; reflexivity. Qed.

Lemma text_eqb_neq (a b : text) : text_eqb a b = false <-> a <> b.
Proof.
  rewrite <- text_eqb_eq. destruct (text_eqb a b); split; congruence.
Qed.

Lemma starts_with_iff (p s : text) :
  starts_with p s = true <-> exists r, s = p ++ r.
Proof.
  revert s; induction p as [|x p IH]; intros s; simpl.
  - split; [intros _; exists s; reflexivity | reflexivity].
  - destruct s as [|y s].
    + split; [discriminate | intros [r H]; discriminate].
    + rewrite andb_true_iff, Ascii.eqb_eq, IH. split.
      * intros [-> [r ->]]. exists r; reflexivity.
      * intros [r H]. inversion H; subst. split; [reflexivity | exists r; reflexivity].
Qed.

Lemma contains_iff (needle hay : text) :
  contains needle hay = true <-> exists a b, hay = a ++ needle ++ b.
Proof.
  induction hay as [|c hay IH]; simpl.
  - rewrite orb_false_r, starts_with_iff. split.
    + intros [r H]. exists [], r. exact H.
    + intros [a [b H]]. destruct a; [exists b; exact H | discriminate].
  - rewrite orb_true_iff, starts_with_iff, IH. split.
    + intros [[r H] | [a [b H]]].
      * exists [], r. exact H.
      * exists (c :: a), b. rewrite H; reflexivity.
    + intros [[|x a] [b H]].
      * left. exists b. exact H.
      * right. inversion H; subst. exists a, b. reflexivity.
Qed.

Lemma contains_lower (needle hay : text) :
  contains needle hay = true -> contains (lower needle) (lower hay) = true.
Proof.
  rewrite !contains_iff. intros [a [b ->]].
  exists (lower a), (lower b). unfold lower. rewrite !map_app. reflexivity.
Qed.

Lemma contains_trans (a b c : text) :
  contains a b = true -> contains b c = true -> contains a c = true.
Proof.
  rewrite !contains_iff. intros [x [y ->]] [u [v ->]].
  exists (u ++ x), (y ++ v). rewrite <- !app_assoc. reflexivity.
Qed.

(** ** The matcher *)

Lemma match_lit_prefix (k : text) (r : regex) (s : text) (g : groups) :
  match_here (map Chr k ++ r) s = Some g ->
  exists s', s = k ++ s' /\ match_here r s' = Some g.
Proof.
  revert s; induction k as [|c k IH]; intros s H; simpl in *.
  - exists s; auto.
  - destruct s as [|x s]; [discriminate|].
    destruct (Ascii.eqb x c) eqn:E; [|discriminate].
    apply Ascii.eqb_eq in E; subst x.
    destruct (IH _ H) as [s' [-> H']]. exists s'; auto.
Qed.

Lemma search_some (r : regex) (s : text) (g : groups) :
  search r s = Some g ->
  exists a b, s = a ++ b /\ match_here r b = Some g.
Proof.
  induction s as [|c s IH]; simpl; intros H.
  - destruct (match_here r []) eqn:E; [|discriminate].
    exists [], []. inversion H; subst; auto.
  - destruct (match_here r (c :: s)) eqn:E.
    + inversion H; subst. exists [], (c :: s); auto.
    + destruct (IH H) as [a [b [-> Hb]]]. exists (c :: a), b; auto.
Qed.

Lemma search_none (r : regex) (s : text) :
  search r s = None ->
  forall a b, s = a ++ b -> match_here r b = None.
Proof.
  induction s as [|c s IH]; simpl; intros H a b E.
  - destruct a; [|discriminate]. simpl in E; subst b.
    destruct (match_here r []); [discriminate | reflexivity].
  - destruct (match_here r (c :: s)) eqn:M; [discriminate|].
    destruct a as [|x a]; simpl in E.
    + subst b; exact M.
    + inversion E; subst. eapply IH; eauto.
Qed.

(** A pattern that starts with a literal only matches where the literal
    occurs. *)
Lemma search_lit_contains (k : string) (r : regex) (s : text) (g : groups) :
  search (lit k ++ r) s = Some g -> contains (T k) s = true.
Proof.
  intros H. apply search_some in H. destruct H as [a [b [-> H]]].
  apply match_lit_prefix in H. destruct H as [s' [-> _]].
  apply contains_iff. exists a, s'. reflexivity.
Qed.

Lemma star_some (k : char_class) (cont : text -> option groups) (s : text)
  (g : groups) :
  star k cont s = Some g -> exists s', cont s' = Some g.
Proof.
  induction s as [|c s IH]; simpl; intros H.
  - eauto.
  - destruct (in_class k c); [|eauto].
    destruct (star k cont s) eqn:E; [|eauto].
    inversion H; subst. auto.
Qed.

Lemma group_more_some (k : char_class) (cont : text -> option groups)
  (acc s : text) (g : groups) :
  group_more k cont acc s = Some g ->
  exists c s' g', g = (acc ++ c) :: g'
                  /\ forallb (in_class k) c = true
                  /\ cont s' = Some g'.
Proof.
  revert acc; induction s as [|x s IH]; simpl; intros acc H.
  - destruct (cont []) as [g'|] eqn:E; [|discriminate]. inversion H; subst.
    exists [], [], g'. rewrite app_nil_r. auto.
  - assert (Hstop : option_map (cons acc) (cont (x :: s)) = Some g ->
                    exists c s' g', g = (acc ++ c) :: g'
                      /\ forallb (in_class k) c = true /\ cont s' = Some g').
    { intros H'. destruct (cont (x :: s)) as [g'|] eqn:E; [|discriminate].
      inversion H'; subst. exists [], (x :: s), g'. rewrite app_nil_r. auto. }
    destruct (in_class k x) eqn:K; [|auto].
    destruct (group_more k cont (acc ++ [x]) s) eqn:E; [|auto].
    inversion H; subst.
    destruct (IH _ E) as [c [s' [g' [-> [Hc Hk]]]]].
    exists (x :: c), s', g'. simpl. rewrite K, <- app_assoc. auto.
Qed.

(** What a match of a grid-step pattern captures: one non-empty group,
    made of digits and dots, found after the key token. *)
Lemma match_step_capture (key : string) (s : text) (m : groups) :
  match_here (step_re key) s = Some m ->
  exists c, m = [c] /\ c <> [] /\ forallb (in_class DigitDot) c = true.
Proof.
  unfold step_re, lit. intros H.
  apply match_lit_prefix in H. destruct H as [s1 [_ H]].
  cbn [match_here] in H.
  apply star_some in H. destruct H as [s2 H].
  destruct s2 as [|x s2]; [discriminate|].
  destruct (Ascii.eqb x ":"); [|discriminate].
  apply star_some in H. destruct H as [s3 H].
  destruct s3 as [|y s3]; [discriminate|].
  destruct (in_class DigitDot y) eqn:K; [|discriminate].
  apply group_more_some in H. destruct H as [c [s' [g' [-> [Hc Hk]]]]].
  inversion Hk; subst. exists (y :: c).
  split; [reflexivity|]. split; [congruence|].
  cbn [forallb]. rewrite K, Hc. reflexivity.
Qed.

Lemma search_step_capture (key : string) (s : text) (m : groups) :
  search (step_re key) s = Some m ->
  exists c, m = [c] /\ c <> [] /\ forallb (in_class DigitDot) c = true.
Proof.
  intros H. apply search_some in H. destruct H as [a [b [_ H]]].
  eapply match_step_capture; eauto.
Qed.

(** ** The extractor, field by field *)

Lemma parse_blk_text_return (content : text) (d : blk_data) :
  parse_blk_text content = Return d <->
  extract_size content = Return (map_size d)
  /\ extract_step ground_re content = Return (ground_grid_step d)
  /\ extract_step air_re content = Return (air_grid_step d)
  /\ extract_step naval_re content = Return (naval_grid_step d)
  /\ detect_modes content = game_modes d.
Proof.
  unfold parse_blk_text.
  destruct (extract_size content) as [sz|e1]; simpl;
    [|split; [discriminate | intros [H _]; discriminate]].
  destruct (extract_step ground_re content) as [g|e2]; simpl;
    [|split; [discriminate | intros [_ [H _]]; discriminate]].
  destruct (extract_step air_re content) as [a|e3]; simpl;
    [|split; [discriminate | intros [_ [_ [H _]]]; discriminate]].
  destruct (extract_step naval_re content) as [n|e4]; simpl;
    [|split; [discriminate | intros [_ [_ [_ [H _]]]]; discriminate]].
  destruct d as [sz' g' a' n' m']; simpl. split.
  - intros H; inversion H; subst; auto.
  - intros [H1 [H2 [H3 [H4 H5]]]]. congruence.
Qed.

Lemma parse_blk_file_some (content : text) (d : blk_data) :
  parse_blk_file (Readable content) = Return (Some d) <->
  parse_blk_text content = Return d.
Proof.
  unfold parse_blk_file; simpl.
  destruct (parse_blk_text content); simpl; split; congruence.
Qed.

Lemma parse_blk_file_none (content : text) :
  parse_blk_file (Readable content) = Return None <->
  exists e, parse_blk_text content = Raise e.
Proof.
  unfold parse_blk_file; simpl.
  destruct (parse_blk_text content) as [d|e]; simpl; split.
  - discriminate.
  - intros [e H]; discriminate.
  - eauto.
  - reflexivity.
Qed.

Lemma extract_step_present (r : regex) (content : text) (x : float) :
  extract_step r content = Return (Some x) ->
  exists m, search r content = Some m.
Proof.
  unfold extract_step. destruct (search r content); [eauto | discriminate].
Qed.

Lemma extract_step_no_match (r : regex) (content : text) :
  search r content = None -> extract_step r content = Return None.
Proof. unfold extract_step. intros ->. reflexivity. Qed.

Lemma detect_modes_air (content : text) :
  contains (T "air") (lower content) = true ->
  In (T "air") (detect_modes content).
Proof.
  intros H. unfold detect_modes. rewrite H.
  destruct (contains (T "ground") (lower content)
            || contains (T "tank") (lower content));
  destruct (contains (T "naval") (lower content)); simpl; auto.
Qed.

Lemma detect_modes_naval (content : text) :
  contains (T "naval") (lower content) = true ->
  In (T "naval") (detect_modes content).
Proof.
  intros H. unfold detect_modes. rewrite H.
  destruct (contains (T "ground") (lower content)
            || contains (T "tank") (lower content));
  destruct (contains (T "air") (lower content)); simpl; auto.
Qed.

Lemma app_prefix_split {A} (x y p q : list A) :
  x ++ y = p ++ q -> (List.length x <= List.length p)%nat ->
  exists w, p = x ++ w /\ y = w ++ q.
Proof.
  revert p; induction x as [|c x IH]; intros p E L; simpl in *.
  - exists p; auto.
  - destruct p as [|c' p]; simpl in *; [lia|].
    inversion E; subst. destruct (IH p H1) as [w [-> ->]]; [lia|].
    exists w; auto.
Qed.

(** No occurrence of [key] fits inside [tok] when [tok] does not contain
    it. *)
Lemma not_inside_token (tok key content a b : text) :
  contains key tok = false ->
  content = a ++ key ++ b ->
  ~ inside_token tok key content a.
Proof.
  intros Hc E [pre [post [E' [L1 L2]]]].
  rewrite E in E'. symmetry in E'.
  destruct (app_prefix_split _ _ _ _ E' L1) as [u [-> E2]].
  rewrite length_app in L2.
  assert (E3 : (u ++ key) ++ b = tok ++ post)
    by (rewrite <- app_assoc; auto).
  destruct (app_prefix_split _ _ _ _ E3) as [w [Ht _]].
  { rewrite length_app. lia. }
  assert (contains key tok = true).
  { apply contains_iff. exists u, w. rewrite Ht, <- app_assoc. reflexivity. }
  congruence.
Qed.

(** ** Claims on the key tokens and the game modes *)

(** C8.  A config text whose only occurrences of the ground-step key
    token [gridStep] would lie inside occurrences of the air or naval key
    tokens has no match of the ground-step pattern, and the record
    extracted from it has no [ground_grid_step]: the ground key token is
    no substring of [airGridStep] or [navalGridStep] (the letter case
    differs), so there is no such occurrence at all. *)
Theorem ground_step_no_cross_match (content : text) (d : blk_data)
  (Hkeys : no_separate_ground_key content)
  (Hd : parse_blk_file (Readable content) = Return (Some d)) :
  search ground_re content = None
  /\ ground_grid_step d = None
  /\ contains (T "gridStep") (T "airGridStep") = false
  /\ contains (T "gridStep") (T "navalGridStep") = false.
Proof.
  assert (Hs : search ground_re content = None).
  { destruct (search ground_re content) as [m|] eqn:S; [|reflexivity].
    exfalso. apply search_some in S. destruct S as [a [b [E M]]].
    unfold ground_re, step_re, lit in M.
    apply match_lit_prefix in M. destruct M as [s' [-> _]].
    destruct (Hkeys a s' E) as [H | H];
      revert H; eapply not_inside_token; eauto. }
  split; [exact Hs|]. split; [|split; reflexivity].
  apply parse_blk_file_some, parse_blk_text_return in Hd.
  destruct Hd as [_ [Hg _]].
  rewrite (extract_step_no_match _ _ Hs) in Hg. congruence.
Qed.

Lemma ground_step_no_cross_match_witness :
  exists d,
    parse_blk_file (Readable (T "airGridStep: 100 navalGridStep: 20"))
    = Return (Some d)
    /\ ground_grid_step d = None
    /\ air_grid_step d = Some 100%float
    /\ naval_grid_step d = Some 20%float.
Proof.
  eexists. split; [reflexivity|]. split; [|split; reflexivity].
  refine (proj1 (proj2 (ground_step_no_cross_match
            (T "airGridStep: 100 navalGridStep: 20") _ _ eq_refl))).
  intros a b E.
  assert (H : contains (T "gridStep")
                (T "airGridStep: 100 navalGridStep: 20") = true).
  { apply contains_iff. exists a, b. exact E. }
  vm_compute in H. discriminate H.
Defined.

(** C10.  When extraction succeeds, a record that has [air_grid_step]
    has ["air"] among its game modes and a record that has
    [naval_grid_step] has ["naval"] among them: the key token matched
    contains the word the mode test looks for.  Nothing of the kind holds
    for [ground_grid_step]: the text [gridStep: 5] gives a ground step
    and the modes [["unknown"]]. *)
Theorem grid_step_implies_mode (content : text) (d : blk_data)
  (Hd : parse_blk_file (Readable content) = Return (Some d)) :
  (air_grid_step d <> None -> In (T "air") (game_modes d))
  /\ (naval_grid_step d <> None -> In (T "naval") (game_modes d))
  /\ (exists content' d',
        parse_blk_file (Readable content') = Return (Some d')
        /\ ground_grid_step d' <> None
        /\ ~ In (T "ground") (game_modes d')).
Proof.
  apply parse_blk_file_some, parse_blk_text_return in Hd.
  destruct Hd as [_ [_ [Ha [Hn Hm]]]]. rewrite <- Hm.
  split; [|split].
  - intros Hp. destruct (air_grid_step d) as [x|]; [|congruence].
    apply extract_step_present in Ha. destruct Ha as [m Ha].
    apply search_lit_contains, contains_lower in Ha.
    apply detect_modes_air.
    eapply contains_trans; [|exact Ha]. reflexivity.
  - intros Hp. destruct (naval_grid_step d) as [x|]; [|congruence].
    apply extract_step_present in Hn. destruct Hn as [m Hn].
    apply search_lit_contains, contains_lower in Hn.
    apply detect_modes_naval.
    eapply contains_trans; [|exact Hn]. reflexivity.
  - exists (T "gridStep: 5"). eexists. split; [reflexivity|]. simpl. split.
    + discriminate.
    + intros [H | []]. discriminate H.
Qed.

Lemma grid_step_implies_mode_witness :
  exists d,
    parse_blk_file (Readable (T "airGridStep: 100")) = Return (Some d)
    /\ air_grid_step d = Some 100%float
    /\ In (T "air") (game_modes d).
Proof.
  eexists. split; [reflexivity|]. split; [reflexivity|].
  refine (proj1 (grid_step_implies_mode (T "airGridStep: 100") _ eq_refl) _).
  discriminate.
Defined.

(** ** Captures and their conversion *)

Lemma match_size_capture (s : text) (m : groups) :
  match_here size_re s = Some m ->
  exists c1 c2, m = [c1; c2]
    /\ c1 <> [] /\ forallb (in_class DigitDot) c1 = true
    /\ c2 <> [] /\ forallb (in_class DigitDot) c2 = true.
Proof.
  unfold size_re, lit. intros H.
  apply match_lit_prefix in H. destruct H as [s1 [_ H]].
  cbn [match_here] in H.
  apply star_some in H. destruct H as [s2 H].
  destruct s2 as [|x s2]; [discriminate|].
  destruct (Ascii.eqb x ":"); [|discriminate].
  apply star_some in H. destruct H as [s3 H].
  destruct s3 as [|y s3]; [discriminate|].
  destruct (Ascii.eqb y "["); [|discriminate].
  apply star_some in H. destruct H as [s4 H].
  destruct s4 as [|z s4]; [discriminate|].
  destruct (in_class DigitDot z) eqn:K1; [|discriminate].
  apply group_more_some in H. destruct H as [c1 [s5 [g1 [-> [Hc1 H]]]]].
  apply star_some in H. destruct H as [s6 H].
  destruct s6 as [|u s6]; [discriminate|].
  destruct (Ascii.eqb u ","); [|discriminate].
  apply star_some in H. destruct H as [s7 H].
  destruct s7 as [|v s7]; [discriminate|].
  destruct (in_class DigitDot v) eqn:K2; [|discriminate].
  apply group_more_some in H. destruct H as [c2 [s8 [g2 [-> [Hc2 H]]]]].
  apply star_some in H. destruct H as [s9 H].
  destruct s9 as [|w s9]; [discriminate|].
  destruct (Ascii.eqb w "]"); [|discriminate].
  inversion H; subst.
  exists (z :: c1), (v :: c2).
  split; [reflexivity|].
  cbn [forallb]. rewrite K1, K2, Hc1, Hc2.
  repeat split; congruence.
Qed.

Lemma span_spec (p : ascii -> bool) (s : text) :
  s = fst (span p s) ++ snd (span p s)
  /\ forallb p (fst (span p s)) = true
  /\ match snd (span p s) with
     | [] => True
     | c :: _ => p c = false
     end.
Proof.
  induction s as [|c s IH]; simpl.
  - auto.
  - destruct (p c) eqn:E.
    + destruct (span p s) as [a b]; simpl in *.
      destruct IH as [-> [Ha Hb]]. rewrite E, Ha. auto.
    + simpl. rewrite E. auto.
Qed.

Lemma digit_not_dot (c : ascii) : is_digit c = true -> is_dot c = false.
Proof.
  intros H. unfold is_dot. destruct (Ascii.eqb c ".") eqn:E; [|reflexivity].
  apply Ascii.eqb_eq in E; subst c. discriminate H.
Qed.

Lemma dots_app (a b : text) : dots (a ++ b) = (dots a + dots b)%nat.
Proof. unfold dots. rewrite filter_app, length_app. reflexivity. Qed.

Lemma dots_digits (s : text) : forallb is_digit s = true -> dots s = O.
Proof.
  unfold dots. induction s as [|c s IH]; simpl; [reflexivity|].
  rewrite andb_true_iff. intros [Hc Hs]. rewrite (digit_not_dot _ Hc). auto.
Qed.

Lemma existsb_digits (s : text) :
  forallb is_digit s = true -> existsb is_digit s = negb (is_nil s).
Proof.
  destruct s as [|c s]; simpl; [reflexivity|].
  rewrite andb_true_iff. intros [-> _]. reflexivity.
Qed.

(** In a string of digits and dots, what follows the leading digits is
    empty or starts with a dot. *)
Lemma after_digits (s : text) :
  forallb (in_class DigitDot) s = true ->
  snd (span is_digit s) = []
  \/ exists t, snd (span is_digit s) = "."%char :: t
               /\ forallb (in_class DigitDot) t = true.
Proof.
  intros H. destruct (span_spec is_digit s) as [E [_ Hb]].
  destruct (snd (span is_digit s)) as [|c t] eqn:R; [auto|].
  right. rewrite E, forallb_app in H. apply andb_true_iff in H.
  destruct H as [_ H]. simpl in H.
  rewrite Hb in H. simpl in H. apply andb_true_iff in H.
  destruct H as [Hc Ht]. apply Ascii.eqb_eq in Hc. subst c. eauto.
Qed.

Lemma dots_cons_dot (s : text) : dots ("."%char :: s) = S (dots s).
Proof. reflexivity. Qed.

Lemma existsb_digit_cons_dot (s : text) :
  existsb is_digit ("."%char :: s) = existsb is_digit s.
Proof. reflexivity. Qed.

(** [float] accepts a string of digits and dots exactly when it is a
    decimal lexeme. *)
Lemma py_float_decimal_lexeme (s : text) :
  forallb (in_class DigitDot) s = true ->
  (converts s <-> decimal_lexeme s = true).
Proof.
  intros H. unfold converts, decimal_lexeme, py_float.
  destruct (span_spec is_digit s) as [E [Hip _]].
  destruct (after_digits s H) as [R | [fp [R Hfp]]];
    destruct (span is_digit s) as [ip rest]; cbn [fst snd] in *; subst rest.
  - rewrite app_nil_r in E. subst ip.
    rewrite (dots_digits _ Hip), (existsb_digits _ Hip).
    cbn [Nat.leb andb].
    destruct (is_nil s); cbn [negb]; split; eauto; try discriminate.
    intros [x Hx]; discriminate.
  - change (Ascii.eqb "."%char "."%char) with true. cbv iota.
    destruct (span_spec is_digit fp) as [E2 [Hfd _]].
    destruct (after_digits fp Hfp) as [R2 | [more [R2 _]]];
      destruct (span is_digit fp) as [fd rest']; cbn [fst snd] in *;
      subst rest'.
    + rewrite app_nil_r in E2. subst fd. subst s.
      rewrite dots_app, (dots_digits _ Hip), dots_cons_dot,
        (dots_digits _ Hfd).
      rewrite existsb_app, existsb_digit_cons_dot.
      rewrite (existsb_digits _ Hip), (existsb_digits _ Hfd).
      cbn [Nat.add Nat.leb is_nil andb].
      destruct (is_nil ip), (is_nil fp); cbn [negb andb orb]; split; eauto;
        try discriminate; intros [x Hx]; discriminate.
    + subst s fp.
      rewrite !dots_app, !dots_cons_dot, dots_app, dots_cons_dot.
      replace (dots ip + S (dots fd + S (dots more)) <=? 1)%nat with false
        by (symmetry; apply Nat.leb_gt; lia).
      cbn [is_nil andb]. split; [intros [x Hx]; discriminate | discriminate].
Qed.

Lemma py_float_raise (s : text) :
  (exists e, py_float s = Raise e) <-> ~ converts s.
Proof.
  unfold converts. destruct (py_float s) as [x|e]; split.
  - intros [e H]; discriminate.
  - intros H. exfalso. apply H. eauto.
  - intros _ [x H]; discriminate.
  - eauto.
Qed.

Lemma search_capture (r : regex) (content : text) (m : groups) :
  In r numeric_patterns ->
  search r content = Some m ->
  m <> [] /\ Forall (fun c => c <> []
                              /\ forallb (in_class DigitDot) c = true) m.
Proof.
  intros Hr Hm. apply search_some in Hm. destruct Hm as [a [b [_ Hm]]].
  destruct Hr as [<- | [<- | [<- | [<- | []]]]].
  - apply match_size_capture in Hm.
    destruct Hm as [c1 [c2 [-> [N1 [F1 [N2 F2]]]]]].
    split; [discriminate | repeat constructor; auto].
  - apply match_step_capture in Hm. destruct Hm as [c [-> [N F]]].
    split; [discriminate | repeat constructor; auto].
  - apply match_step_capture in Hm. destruct Hm as [c [-> [N F]]].
    split; [discriminate | repeat constructor; auto].
  - apply match_step_capture in Hm. destruct Hm as [c [-> [N F]]].
    split; [discriminate | repeat constructor; auto].
Qed.

Lemma extract_step_absent (r : regex) (content : text) :
  extract_step r content = Return None <-> search r content = None.
Proof.
  unfold extract_step. destruct (search r content) as [m|]; split;
    try reflexivity; try discriminate.
  destruct (py_float (group m 1)); discriminate.
Qed.

Lemma extract_size_absent (content : text) :
  extract_size content = Return None <-> search size_re content = None.
Proof.
  unfold extract_size. destruct (search size_re content) as [m|]; split;
    try reflexivity; try discriminate.
  destruct (py_float (group m 1)); simpl; [|discriminate].
  destruct (py_float (group m 2)); discriminate.
Qed.

Lemma extract_step_raise (r : regex) (content : text) (e : exn) :
  extract_step r content = Raise e ->
  exists m, search r content = Some m /\ ~ converts (group m 1).
Proof.
  unfold extract_step. destruct (search r content) as [m|]; [|discriminate].
  intros H. exists m. split; [reflexivity|]. apply py_float_raise.
  destruct (py_float (group m 1)); [discriminate | eauto].
Qed.

Lemma extract_size_raise (content : text) (e : exn) :
  extract_size content = Raise e ->
  exists m, search size_re content = Some m
            /\ (~ converts (group m 1) \/ ~ converts (group m 2)).
Proof.
  unfold extract_size.
  destruct (search size_re content) as [m|]; [|discriminate].
  intros H. exists m. split; [reflexivity|].
  destruct (py_float (group m 1)) eqn:E1.
  - right. apply py_float_raise.
    destruct (py_float (group m 2)); [discriminate | eauto].
  - left. apply py_float_raise. eauto.
Qed.

Lemma extract_step_converts (r : regex) (content : text) (v : option float)
  (m : groups) (c : text) :
  extract_step r content = Return v ->
  search r content = Some m -> m = [c] -> converts c.
Proof.
  unfold extract_step. intros H Hs ->. rewrite Hs in H.
  change (group [c] 1) with c in H.
  unfold converts. destruct (py_float c); [eauto | discriminate].
Qed.

Lemma extract_size_converts (content : text) (v : option (float * float))
  (m : groups) (c1 c2 : text) :
  extract_size content = Return v ->
  search size_re content = Some m -> m = [c1; c2] ->
  converts c1 /\ converts c2.
Proof.
  unfold extract_size. intros H Hs ->. rewrite Hs in H.
  change (group [c1; c2] 1) with c1 in H.
  change (group [c1; c2] 2) with c2 in H.
  unfold converts. destruct (py_float c1); [|discriminate].
  destruct (py_float c2); [eauto | discriminate].
Qed.

(** The extractor returns the empty dictionary exactly when a numeric
    pattern matches with a capture that does not convert. *)
Lemma parse_blk_file_empty (content : text) :
  parse_blk_file (Readable content) = Return None <->
  exists r m c, In r numeric_patterns /\ search r content = Some m
                /\ In c m /\ ~ converts c.
Proof.
  rewrite parse_blk_file_none. split.
  - intros [e H]. unfold parse_blk_text in H.
    assert (Hstep : forall r e', In r [ground_re; air_re; naval_re] ->
              extract_step r content = Raise e' ->
              exists r m c, In r numeric_patterns
                /\ search r content = Some m /\ In c m /\ ~ converts c).
    { intros r e' Hr Hx. apply extract_step_raise in Hx.
      destruct Hx as [m [Hm Hc]].
      assert (Hin : In r numeric_patterns) by (simpl in *; tauto).
      assert (Hm' := Hm). apply search_some in Hm'.
      destruct Hm' as [a [b [_ Hm']]].
      assert (exists c, m = [c]) as [c ->].
      { destruct Hr as [<- | [<- | [<- | []]]];
          apply match_step_capture in Hm'; destruct Hm' as [c [-> _]]; eauto. }
      exists r, [c], c. simpl in *. auto. }
    destruct (extract_size content) as [sz|e1] eqn:E1.
    + simpl in H.
      destruct (extract_step ground_re content) as [g|e2] eqn:E2;
        [|eapply Hstep; [|exact E2]; simpl; auto].
      simpl in H.
      destruct (extract_step air_re content) as [a|e3] eqn:E3;
        [|eapply Hstep; [|exact E3]; simpl; auto].
      simpl in H.
      destruct (extract_step naval_re content) as [n|e4] eqn:E4;
        [|eapply Hstep; [|exact E4]; simpl; auto].
      discriminate H.
    + apply extract_size_raise in E1. destruct E1 as [m [Hm Hc]].
      assert (Hm' := Hm). apply search_some in Hm'.
      destruct Hm' as [a [b [_ Hm']]].
      apply match_size_capture in Hm'. destruct Hm' as [c1 [c2 [-> _]]].
      simpl in Hc. destruct Hc as [Hc | Hc].
      * exists size_re, [c1; c2], c1. simpl; auto.
      * exists size_re, [c1; c2], c2. simpl; auto 6.
  - intros [r [m [c [Hr [Hm [Hc Hn]]]]]].
    destruct (parse_blk_text content) as [d|e] eqn:P; [|eauto].
    exfalso. apply Hn. apply parse_blk_text_return in P.
    destruct P as [P1 [P2 [P3 [P4 _]]]].
    assert (Hm' := Hm). apply search_some in Hm'.
    destruct Hm' as [a [b [_ Hm']]].
    destruct Hr as [<- | [<- | [<- | [<- | []]]]].
    + apply match_size_capture in Hm'. destruct Hm' as [c1 [c2 [-> _]]].
      destruct (extract_size_converts _ _ _ _ _ P1 Hm eq_refl) as [Q1 Q2].
      destruct Hc as [<- | [<- | []]]; assumption.
    + apply match_step_capture in Hm'. destruct Hm' as [c' [-> _]].
      destruct Hc as [<- | []].
      eapply extract_step_converts; [exact P2 | exact Hm | reflexivity].
    + apply match_step_capture in Hm'. destruct Hm' as [c' [-> _]].
      destruct Hc as [<- | []].
      eapply extract_step_converts; [exact P3 | exact Hm | reflexivity].
    + apply match_step_capture in Hm'. destruct Hm' as [c' [-> _]].
      destruct Hc as [<- | []].
      eapply extract_step_converts; [exact P4 | exact Hm | reflexivity].
Qed.

Lemma field_absent_iff (content : text) (d : blk_data) :
  parse_blk_file (Readable content) = Return (Some d) ->
  (map_size d = None <-> search size_re content = None)
  /\ (ground_grid_step d = None <-> search ground_re content = None)
  /\ (air_grid_step d = None <-> search air_re content = None)
  /\ (naval_grid_step d = None <-> search naval_re content = None).
Proof.
  intros H. apply parse_blk_file_some, parse_blk_text_return in H.
  destruct H as [H1 [H2 [H3 [H4 _]]]].
  rewrite <- extract_size_absent, <- !extract_step_absent.
  rewrite H1, H2, H3, H4.
  repeat split; congruence.
Qed.

(** ** Claims on the conversion of captures and on independence *)

(** C6, as amended.  Whenever one of the four numeric patterns matches,
    it captures non-empty strings of digits and dots, and such a capture
    converts to a float exactly when it is a decimal lexeme (at most one
    dot, at least one digit).  In a non-empty extraction result a numeric
    field is absent exactly when its pattern does not match; the result
    is empty exactly when some pattern matches with a capture that does
    not convert. *)
Theorem numeric_capture_conversion (content : text) (r : regex) (m : groups)
  (Hr : In r numeric_patterns) (Hm : search r content = Some m) :
  m <> []
  /\ Forall (fun c => c <> []
                      /\ forallb (in_class DigitDot) c = true
                      /\ (converts c <-> decimal_lexeme c = true)) m
  /\ (forall d, parse_blk_file (Readable content) = Return (Some d) ->
        (map_size d = None <-> search size_re content = None)
        /\ (ground_grid_step d = None <-> search ground_re content = None)
        /\ (air_grid_step d = None <-> search air_re content = None)
        /\ (naval_grid_step d = None <-> search naval_re content = None))
  /\ (parse_blk_file (Readable content) = Return None <->
      exists r' m' c, In r' numeric_patterns /\ search r' content = Some m'
                      /\ In c m' /\ decimal_lexeme c = false).
Proof.
  destruct (search_capture _ _ _ Hr Hm) as [Hne HF].
  split; [exact Hne|]. split; [|split].
  - eapply Forall_impl; [|exact HF]. intros c [Hc Hd].
    split; [exact Hc|]. split; [exact Hd|].
    apply py_float_decimal_lexeme; exact Hd.
  - apply field_absent_iff.
  - rewrite parse_blk_file_empty. split.
    + intros [r' [m' [c [Hr' [Hm' [Hc Hn]]]]]]. exists r', m', c.
      repeat split; auto.
      destruct (search_capture _ _ _ Hr' Hm') as [_ HF'].
      rewrite Forall_forall in HF'. destruct (HF' c Hc) as [_ Hd].
      destruct (decimal_lexeme c) eqn:L; [|reflexivity].
      exfalso. apply Hn. apply py_float_decimal_lexeme; assumption.
    + intros [r' [m' [c [Hr' [Hm' [Hc Hn]]]]]]. exists r', m', c.
      repeat split; auto.
      destruct (search_capture _ _ _ Hr' Hm') as [_ HF'].
      rewrite Forall_forall in HF'. destruct (HF' c Hc) as [_ Hd].
      intros Hv. apply py_float_decimal_lexeme in Hv; [congruence | exact Hd].
Qed.

Lemma numeric_capture_conversion_witness :
  search ground_re (T "gridStep: 50.0") = Some [T "50.0"]
  /\ converts (T "50.0").
Proof.
  split; [reflexivity|].
  destruct (numeric_capture_conversion (T "gridStep: 50.0") ground_re
              [T "50.0"] (or_intror (or_introl eq_refl)) eq_refl)
    as [_ [HF _]].
  inversion HF as [|c l [_ [_ Hc]] _]. apply Hc. reflexivity.
Defined.

(** C6 as stated fails: the ground-step pattern matches [gridStep: 1.2.3]
    and captures [1.2.3], which [float] rejects; the extractor then
    returns the empty dictionary. *)
Lemma capture_not_convertible :
  search ground_re (T "gridStep: 1.2.3") = Some [T "1.2.3"]
  /\ py_float (T "1.2.3") = Raise ValueError
  /\ parse_blk_file (Readable (T "gridStep: 1.2.3")) = Return None.
Proof. repeat split; reflexivity. Qed.

(** C5, as amended.  The extractor never raises.  When it returns a
    record, each field is what its own rule finds in the text: two texts
    on which a pattern gives the same match give the same value for that
    field, whatever the other fields are; a field whose key token is
    missing from the text is absent; the game modes are those of the
    substring tests.  The extractor returns the empty dictionary, losing
    every field, exactly when some numeric pattern matches with a capture
    that does not convert. *)
Theorem extraction_fieldwise (c1 c2 : text) (d1 d2 : blk_data)
  (H1 : parse_blk_file (Readable c1) = Return (Some d1))
  (H2 : parse_blk_file (Readable c2) = Return (Some d2)) :
  (forall f, exists r, parse_blk_file f = Return r)
  /\ (search size_re c1 = search size_re c2 -> map_size d1 = map_size d2)
  /\ (search ground_re c1 = search ground_re c2 ->
      ground_grid_step d1 = ground_grid_step d2)
  /\ (search air_re c1 = search air_re c2 ->
      air_grid_step d1 = air_grid_step d2)
  /\ (search naval_re c1 = search naval_re c2 ->
      naval_grid_step d1 = naval_grid_step d2)
  /\ game_modes d1 = detect_modes c1
  /\ (contains (T "mapSize") c1 = false -> map_size d1 = None)
  /\ (contains (T "gridStep") c1 = false -> ground_grid_step d1 = None)
  /\ (contains (T "airGridStep") c1 = false -> air_grid_step d1 = None)
  /\ (contains (T "navalGridStep") c1 = false -> naval_grid_step d1 = None)
  /\ (forall c, parse_blk_file (Readable c) = Return None <->
        exists r m x, In r numeric_patterns /\ search r c = Some m
                      /\ In x m /\ ~ converts x).
Proof.
  assert (Hkey : forall k rest c,
            contains (T k) c = false -> search (lit k ++ rest) c = None).
  { intros k rest c Hc. destruct (search (lit k ++ rest) c) eqn:S; [|auto].
    apply search_lit_contains in S. congruence. }
  destruct (field_absent_iff _ _ H1) as [A1 [A2 [A3 A4]]].
  apply parse_blk_file_some, parse_blk_text_return in H1, H2.
  destruct H1 as [S1 [G1 [R1 [N1 M1]]]].
  destruct H2 as [S2 [G2 [R2 [N2 M2]]]].
  split.
  { intros f. unfold parse_blk_file.
    destruct (content <- read_file f;; data <- parse_blk_text content;;
              Return (Some data)); simpl; eauto. }
  unfold extract_size, extract_step in *.
  repeat split.
  - intros E. rewrite E in S1. congruence.
  - intros E. rewrite E in G1. congruence.
  - intros E. rewrite E in R1. congruence.
  - intros E. rewrite E in N1. congruence.
  - auto.
  - intros Hc. apply A1. apply (Hkey "mapSize"%string). exact Hc.
  - intros Hc. apply A2. apply (Hkey "gridStep"%string). exact Hc.
  - intros Hc. apply A3. apply (Hkey "airGridStep"%string). exact Hc.
  - intros Hc. apply A4. apply (Hkey "navalGridStep"%string). exact Hc.
  - apply parse_blk_file_empty.
  - apply parse_blk_file_empty.
Qed.

Lemma extraction_fieldwise_witness :
  exists d1 d2,
    parse_blk_file (Readable (T "gridStep: 50 airGridStep: 100"))
    = Return (Some d1)
    /\ parse_blk_file (Readable (T "mapSize: [9, 9] airGridStep: 100"))
       = Return (Some d2)
    /\ air_grid_step d1 = air_grid_step d2
    /\ naval_grid_step d1 = None.
Proof.
  eexists. eexists. split; [reflexivity|]. split; [reflexivity|].
  destruct (extraction_fieldwise
              (T "gridStep: 50 airGridStep: 100")
              (T "mapSize: [9, 9] airGridStep: 100") _ _ eq_refl eq_refl)
    as [_ [_ [_ [Ha [_ [_ [_ [_ [_ [Hn _]]]]]]]]]].
  split; [apply Ha; reflexivity | apply Hn; reflexivity].
Defined.

(** C5 as stated fails: with the malformed value [1.2.3] for the ground
    step the extractor returns the empty dictionary, so the air step and
    the game modes found in the same text without that field are lost
    too. *)
Lemma extraction_not_independent :
  parse_blk_file (Readable (T "gridStep: 1.2.3 airGridStep: 100"))
  = Return None
  /\ parse_blk_file (Readable (T " airGridStep: 100"))
     = Return (Some (mk_blk_data None None (Some 100%float) None [T "air"])).
Proof. split; reflexivity. Qed.

(** ** Dictionaries *)

Lemma dict_get_set_same {V} (d : dict V) (k : text) (v : V) :
  dict_get (dict_set d k v) k = Some v.
Proof.
  induction d as [|[k' v'] d IH]; simpl.
  - rewrite text_eqb_refl. reflexivity.
  - destruct (text_eqb k' k) eqn:E; simpl; rewrite E; auto.
Qed.

Lemma dict_get_set_other {V} (d : dict V) (k k' : text) (v : V) :
  k <> k' -> dict_get (dict_set d k v) k' = dict_get d k'.
Proof.
  intros N. induction d as [|[k0 v0] d IH]; simpl.
  - apply text_eqb_neq in N. rewrite N. reflexivity.
  - destruct (text_eqb k0 k) eqn:E; simpl.
    + apply text_eqb_eq in E. subst k0.
      apply text_eqb_neq in N. rewrite N. reflexivity.
    + rewrite IH. reflexivity.
Qed.

Lemma keys_dict_set {V} (d : dict V) (k : text) (v : V) :
  keys (dict_set d k v) = if existsb (text_eqb k) (keys d) then keys d
                          else keys d ++ [k].
Proof.
  unfold keys. induction d as [|[k' v'] d IH]; simpl; [reflexivity|].
  destruct (text_eqb k' k) eqn:E.
  - apply text_eqb_eq in E. subst k'. rewrite text_eqb_refl. reflexivity.
  - assert (E' : text_eqb k k' = false).
    { apply text_eqb_neq. apply text_eqb_neq in E. congruence. }
    rewrite E'. simpl. rewrite IH.
    destruct (existsb (text_eqb k) (map fst d)); reflexivity.
Qed.

Lemma existsb_text_eqb (k : text) (l : list text) :
  existsb (text_eqb k) l = true <-> In k l.
Proof.
  rewrite existsb_exists. split.
  - intros [x [Hx E]]. apply text_eqb_eq in E. subst; auto.
  - intros H. exists k. split; [auto | apply text_eqb_refl].
Qed.

Lemma keys_dict_set_nodup {V} (d : dict V) (k : text) (v : V) :
  NoDup (keys d) -> NoDup (keys (dict_set d k v)).
Proof.
  intros H. rewrite keys_dict_set.
  destruct (existsb (text_eqb k) (keys d)) eqn:E; [exact H|].
  apply NoDup_app; [exact H | repeat constructor; auto |].
  intros x Hx [<- | []].
  apply existsb_text_eqb in Hx. congruence.
Qed.

(** ** The record builder *)

Lemma parse_blk_file_returns (f : blk_file) :
  exists r, parse_blk_file f = Return r.
Proof.
  unfold parse_blk_file.
  destruct (content <- read_file f;; data <- parse_blk_text content;;
            Return (Some data)); simpl; eauto.
Qed.

Lemma visit_level_record (maps : dict map_info) (level : level_dir) :
  visit_level maps level
  = Return (match level_record level with
            | Some r => dict_set maps (dir_name level) r
            | None => maps
            end).
Proof.
  unfold visit_level, level_record.
  destruct (is_dir level); simpl; [|reflexivity].
  destruct (level_blk level) as [blk|]; [|reflexivity].
  destruct (parse_blk_file_returns blk) as [[d|] ->]; reflexivity.
Qed.

Lemma visit_levels_returns (levels : list level_dir) (maps : dict map_info) :
  exists maps', visit_levels maps levels = Return maps'.
Proof.
  revert maps; induction levels as [|l levels IH]; intros maps; simpl.
  - eauto.
  - rewrite visit_level_record. simpl. apply IH.
Qed.

Lemma visit_levels_other (levels : list level_dir) (maps maps' : dict map_info)
  (k : text) :
  ~ In k (map dir_name levels) ->
  visit_levels maps levels = Return maps' ->
  dict_get maps' k = dict_get maps k.
Proof.
  revert maps; induction levels as [|l levels IH]; intros maps N H;
    simpl in *.
  - congruence.
  - rewrite visit_level_record in H. simpl in H.
    rewrite (IH _ (fun X => N (or_intror X)) H).
    destruct (level_record l); [|reflexivity].
    apply dict_get_set_other. intros E. apply N. auto.
Qed.

(** With distinct entry names, the record found under the name of an
    entry is the one this entry contributes. *)
Lemma visit_levels_get (levels : list level_dir) (maps maps' : dict map_info)
  (level : level_dir) :
  NoDup (map dir_name levels) ->
  In level levels ->
  visit_levels maps levels = Return maps' ->
  dict_get maps' (dir_name level)
  = match level_record level with
    | Some r => Some r
    | None => dict_get maps (dir_name level)
    end.
Proof.
  revert maps; induction levels as [|l levels IH]; intros maps ND Hin H;
    simpl in *; [contradiction|].
  inversion ND as [|x xs Hx ND']; subst.
  rewrite visit_level_record in H. simpl in H.
  destruct Hin as [-> | Hin].
  - rewrite (visit_levels_other _ _ _ _ Hx H).
    destruct (level_record level); [apply dict_get_set_same | reflexivity].
  - rewrite (IH _ ND' Hin H).
    destruct (level_record level); [reflexivity|].
    destruct (level_record l); [|reflexivity].
    apply dict_get_set_other. intros E. apply Hx. rewrite E.
    apply in_map. exact Hin.
Qed.

(** Every record of [maps] is stored under its own name and carries the
    display name computed from it. *)
Lemma visit_levels_names (levels : list level_dir) (maps maps' : dict map_info) :
  (forall k info, dict_get maps k = Some info ->
                  name info = k /\ localized_name info = clean_name k) ->
  visit_levels maps levels = Return maps' ->
  forall k info, dict_get maps' k = Some info ->
                 name info = k /\ localized_name info = clean_name k.
Proof.
  revert maps; induction levels as [|l levels IH]; intros maps Inv H;
    simpl in *.
  - inversion H; subst. exact Inv.
  - rewrite visit_level_record in H. simpl in H.
    eapply IH; [|exact H]. intros k info.
    destruct (level_record l) as [r|] eqn:R; [|apply Inv].
    destruct (text_eqb (dir_name l) k) eqn:E.
    + apply text_eqb_eq in E. subst k. rewrite dict_get_set_same.
      intros X; inversion X; subst. unfold level_record in R.
      destruct (is_dir l); [|discriminate].
      destruct (level_blk l); [|discriminate].
      destruct (parse_blk_file b) as [[d|]|]; try discriminate.
      inversion R; subst. auto.
    + apply text_eqb_neq in E. rewrite (dict_get_set_other _ _ _ _ E).
      apply Inv.
Qed.

Lemma visit_levels_keys_nodup (levels : list level_dir)
  (maps maps' : dict map_info) :
  NoDup (keys maps) ->
  visit_levels maps levels = Return maps' -> NoDup (keys maps').
Proof.
  revert maps; induction levels as [|l levels IH]; intros maps ND H;
    simpl in *.
  - inversion H; subst; exact ND.
  - rewrite visit_level_record in H. simpl in H.
    eapply IH; [|exact H].
    destruct (level_record l); [apply keys_dict_set_nodup|]; exact ND.
Qed.

(** ** Claim on empty and unreadable config files *)

(** C7, as amended.  The record builder always returns.  With distinct
    directory names, a map directory whose config file is empty has a
    record in the collection, without any optional field and with the
    game modes [["unknown"]]; a map directory whose config file cannot be
    read has no record in the collection: the extractor returns the empty
    dictionary for it and the builder skips the entry. *)
Theorem empty_or_unreadable_config (levels : list level_dir)
  (level : level_dir)
  (Hnames : NoDup (map dir_name levels))
  (Hin : In level levels)
  (Hdir : is_dir level = true) :
  exists maps,
    extract_all_maps (Some levels) = Return maps
    /\ (level_blk level = Some (Readable []) ->
        dict_get maps (dir_name level)
        = Some (unknown_record (dir_name level)))
    /\ (level_blk level = Some Unreadable ->
        dict_get maps (dir_name level) = None).
Proof.
  simpl. destruct (visit_levels_returns levels []) as [maps H].
  exists maps. split; [exact H|].
  pose proof (visit_levels_get _ _ _ _ Hnames Hin H) as G.
  unfold level_record in G. rewrite Hdir in G.
  split; intros E; rewrite E in G; exact G.
Qed.

Lemma empty_or_unreadable_config_witness :
  exists maps,
    extract_all_maps
      (Some [mk_level_dir (T "avg_kursk") true (Some (Readable []));
             mk_level_dir (T "air_ruhr") true (Some Unreadable)])
    = Return maps
    /\ dict_get maps (T "avg_kursk") = Some (unknown_record (T "avg_kursk"))
    /\ dict_get maps (T "air_ruhr") = None.
Proof.
  set (kursk := mk_level_dir (T "avg_kursk") true (Some (Readable []))).
  set (ruhr := mk_level_dir (T "air_ruhr") true (Some Unreadable)).
  assert (ND : NoDup (map dir_name [kursk; ruhr])).
  { repeat constructor; simpl; intuition discriminate. }
  destruct (empty_or_unreadable_config [kursk; ruhr] kursk ND
              (or_introl eq_refl) eq_refl) as [maps [H [He _]]].
  destruct (empty_or_unreadable_config [kursk; ruhr] ruhr ND
              (or_intror (or_introl eq_refl)) eq_refl) as [maps' [H' [_ Hu]]].
  exists maps. split; [exact H|]. split; [apply He; reflexivity|].
  rewrite H in H'. inversion H'; subst. apply Hu; reflexivity.
Defined.

(** C7 as stated fails for an unreadable config file: the collection
    built from a single map directory with such a file is empty. *)
Lemma unreadable_config_skipped :
  extract_all_maps (Some [mk_level_dir (T "avg_kursk") true (Some Unreadable)])
  = Return [].
Proof. reflexivity. Qed.

(** ** [replace] and the display name *)

Lemma contains_false_cons (needle : text) (c : ascii) (s : text) :
  contains needle (c :: s) = false ->
  starts_with needle (c :: s) = false /\ contains needle s = false.
Proof. simpl. intros H. apply orb_false_iff in H. exact H. Qed.

Lemma replace_from_absent (old new s : text) :
  contains old s = false -> replace_from old new O s = s.
Proof.
  induction s as [|c s IH]; intros H; [reflexivity|].
  apply contains_false_cons in H. destruct H as [H1 H2].
  cbn [replace_from]. rewrite H1, (IH H2). reflexivity.
Qed.

Lemma replace_from_skip (old new p s : text) :
  replace_from old new (List.length p) (p ++ s) = replace_from old new O s.
Proof.
  induction p as [|c p IH]; simpl; [|exact IH].
  destruct s; reflexivity.
Qed.

Lemma starts_with_self_app (p s : text) : starts_with p (p ++ s) = true.
Proof. apply starts_with_iff. exists s. reflexivity. Qed.

Lemma replace_from_prefix (o : ascii) (old new s : text) :
  replace_from (o :: old) new O ((o :: old) ++ s)
  = new ++ replace_from (o :: old) new O s.
Proof.
  cbn [replace_from app].
  change (o :: old ++ s) with ((o :: old) ++ s).
  rewrite starts_with_self_app.
  replace (List.length (o :: old) - 1)%nat with (List.length old)
    by (simpl; lia).
  rewrite replace_from_skip. reflexivity.
Qed.

(** An occurrence of [avg_] cannot start in [a] and run into a following
    [avg_]: its last character occurs nowhere else in it. *)
Lemma avg_no_overlap (c : ascii) (a b : text) :
  contains (T "avg_") (c :: a) = false ->
  starts_with (T "avg_") ((c :: a) ++ T "avg_" ++ b) = false.
Proof.
  intros H. apply contains_false_cons in H. destruct H as [H _].
  change (T "avg_") with ["a"; "v"; "g"; "_"]%char in *.
  destruct a as [|x [|y [|z a]]]; cbn [starts_with app] in *.
  - destruct (Ascii.eqb "a" c); reflexivity.
  - destruct (Ascii.eqb "a" c), (Ascii.eqb "v" x); reflexivity.
  - destruct (Ascii.eqb "a" c), (Ascii.eqb "v" x), (Ascii.eqb "g" y);
      reflexivity.
  - exact H.
Qed.

(** An occurrence of [avg_] in the middle of a name is removed. *)
Lemma replace_avg_middle (a b : text) :
  contains (T "avg_") a = false ->
  replace (T "avg_") [] (a ++ T "avg_" ++ b) = a ++ replace (T "avg_") [] b.
Proof.
  change (replace (T "avg_") []) with (replace_from (T "avg_") [] O).
  induction a as [|c a IH]; intros H.
  - apply (replace_from_prefix "a" (T "vg_") [] b).
  - pose proof (avg_no_overlap c a b H) as S.
    apply contains_false_cons in H. destruct H as [_ H].
    change ((c :: a) ++ T "avg_" ++ b) with (c :: (a ++ T "avg_" ++ b)) in *.
    cbn [replace_from]. rewrite S, (IH H). reflexivity.
Qed.

(** Where the token occurs at the front only, or not at all, removing
    every occurrence is stripping the prefix. *)
Lemma clean_name_is_spec (identifier : text) :
  contains (T "avg_") (strip_prefix (T "avg_") identifier) = false ->
  clean_name identifier = display_name_spec identifier.
Proof.
  unfold clean_name, display_name_spec, strip_prefix. intros H.
  f_equal. f_equal.
  change (replace (T "avg_") []) with (replace_from (T "avg_") [] O).
  destruct (starts_with (T "avg_") identifier) eqn:S.
  - apply starts_with_iff in S. destruct S as [r ->].
    change (skipn (List.length (T "avg_")) (T "avg_" ++ r)) with r in *.
    rewrite (replace_from_prefix "a" (T "vg_") [] r
             : replace_from (T "avg_") [] O (T "avg_" ++ r)
               = [] ++ replace_from (T "avg_") [] O r).
    apply replace_from_absent. exact H.
  - apply replace_from_absent. exact H.
Qed.

(** ** Claim on the display name *)

(** C9, as amended.  Every record of the collection is stored under its
    identifier and its display name is a function of the identifier
    alone: every occurrence of the token [avg_] is removed (scanning from
    the left), the underscores become spaces and the result is
    title-cased.  This is the stripping of a leading prefix whenever the
    token occurs only at the front of the identifier or not at all; an
    occurrence in the middle of the identifier is removed as well. *)
Theorem display_name_derivation (levels : option (list level_dir))
  (maps : dict map_info) (identifier : text) (info : map_info)
  (Hrun : extract_all_maps levels = Return maps)
  (Hget : dict_get maps identifier = Some info) :
  name info = identifier
  /\ localized_name info
     = title (replace (T "_") (T " ") (replace (T "avg_") [] identifier))
  /\ (contains (T "avg_") (strip_prefix (T "avg_") identifier) = false ->
      localized_name info = display_name_spec identifier)
  /\ (forall a b, identifier = a ++ T "avg_" ++ b ->
                  contains (T "avg_") a = false ->
                  localized_name info
                  = title (replace (T "_") (T " ")
                             (a ++ replace (T "avg_") [] b))).
Proof.
  assert (Inv : name info = identifier
                /\ localized_name info = clean_name identifier).
  { destruct levels as [entries|]; simpl in Hrun.
    - eapply visit_levels_names; [|exact Hrun|exact Hget].
      intros k i X; discriminate X.
    - inversion Hrun; subst. discriminate Hget. }
  destruct Inv as [I1 I2]. split; [exact I1|]. split; [exact I2|]. split.
  - intros H. rewrite I2. apply clean_name_is_spec. exact H.
  - intros a b -> H. rewrite I2. unfold clean_name.
    rewrite (replace_avg_middle a b H). reflexivity.
Qed.

Lemma display_name_derivation_witness :
  exists info,
    dict_get [(T "avg_berlin", unknown_record (T "avg_berlin"))]
             (T "avg_berlin") = Some info
    /\ localized_name info = display_name_spec (T "avg_berlin")
    /\ localized_name info = T "Berlin".
Proof.
  eexists. split; [reflexivity|]. split; [|reflexivity].
  refine (proj1 (proj2 (proj2 (display_name_derivation
            (Some [mk_level_dir (T "avg_berlin") true (Some (Readable []))])
            _ (T "avg_berlin") _ eq_refl eq_refl))) eq_refl).
Defined.

(** C9 as stated fails: the token in the middle of [foo_avg_bar] is
    removed, where stripping the leading prefix keeps it. *)
Lemma middle_token_removed :
  clean_name (T "foo_avg_bar") = T "Foo Bar"
  /\ display_name_spec (T "foo_avg_bar") = T "Foo Avg Bar"
  /\ exists maps info,
       extract_all_maps
         (Some [mk_level_dir (T "foo_avg_bar") true (Some (Readable []))])
       = Return maps
       /\ dict_get maps (T "foo_avg_bar") = Some info
       /\ localized_name info <> display_name_spec (T "foo_avg_bar").
Proof.
  split; [reflexivity|]. split; [reflexivity|].
  eexists. eexists. split; [reflexivity|]. split; [reflexivity|].
  discriminate.
Qed.

(** ** The order of the two writers *)

Lemma text_ltb_asym (a b : text) : text_ltb a b = true -> text_ltb b a = false.
Proof.
  revert b; induction a as [|x a IH]; intros [|y b]; simpl; try congruence.
  intros H. apply orb_true_iff in H. apply orb_false_iff.
  destruct H as [H | H].
  - apply Z.ltb_lt in H. split; [apply Z.ltb_ge; lia|].
    apply andb_false_iff. left. apply Z.eqb_neq. lia.
  - apply andb_true_iff in H. destruct H as [E H]. apply Z.eqb_eq in E.
    split; [apply Z.ltb_ge; lia|]. rewrite (IH _ H). apply andb_false_r.
Qed.

Lemma text_leb_total (a b : text) : text_leb a b = false -> text_leb b a = true.
Proof.
  unfold text_leb. intros H. apply negb_false_iff in H.
  rewrite (text_ltb_asym _ _ H). reflexivity.
Qed.

Lemma insert_sorted_ascending {V} (p : text * V) (l : list (text * V)) :
  ascending l -> ascending (insert_sorted p l).
Proof.
  induction 1 as [|q|q r l Hqr Hl IH]; simpl.
  - constructor.
  - destruct (text_leb (fst p) (fst q)) eqn:E.
    + constructor; [exact E | constructor].
    + constructor; [apply text_leb_total; exact E | constructor].
  - destruct (text_leb (fst p) (fst q)) eqn:E.
    + constructor; [exact E|]. constructor; assumption.
    + simpl in IH. destruct (text_leb (fst p) (fst r)) eqn:E'.
      * constructor; [apply text_leb_total; exact E | exact IH].
      * constructor; [exact Hqr | exact IH].
Qed.

(** The generator walks the records by ascending name. *)
Lemma sorted_items_ascending {V} (d : dict V) : ascending (sorted_items d).
Proof.
  induction d as [|p d IH]; simpl; [constructor|].
  apply insert_sorted_ascending; exact IH.
Qed.

(** The encoder writes the records in the order of the dictionary. *)
Lemma json_dump_order (maps : dict map_info) :
  json_dump maps
  = match maps with
    | [] => T "{}"
    | _ :: _ =>
        T "{" ++ newline_indent 1
        ++ join (T "," ++ newline_indent 1)
             (map (fun kv => json_string (fst kv) ++ T ": "
                             ++ json_encode 1 (info_value (snd kv))) maps)
        ++ newline_indent 0 ++ T "}"
    end.
Proof.
  unfold json_dump, json_dumps, maps_value.
  destruct maps as [|p maps]; [reflexivity|].
  cbn [json_encode map]. rewrite map_map. reflexivity.
Qed.

(** When the records were discovered by ascending name, the generator
    walks them in the order of the dictionary, as the encoder does. *)
Lemma sorted_items_of_ascending {V} (d : dict V) :
  ascending d -> sorted_items d = d.
Proof.
  induction 1 as [|p|p q l Hpq Hl IH]; [reflexivity | reflexivity|].
  change (sorted_items (p :: q :: l))
    with (insert_sorted p (sorted_items (q :: l))).
  rewrite IH. cbn [insert_sorted]. rewrite Hpq. reflexivity.
Qed.

(** The generator writes the [None] wrapper for an absent field and for
    a zero, the [Some] wrapper for any other value. *)
Lemma rust_option_none (step : option float) :
  rust_option step = T "None"
  <-> step = None \/ exists x, step = Some x /\ float_truthy x = false.
Proof.
  unfold rust_option. destruct step as [x|].
  - destruct (float_truthy x) eqn:E; split.
    + intros H. discriminate H.
    + intros [H | [y [H1 H2]]]; [discriminate | inversion H1; subst].
      congruence.
    + intros _. right. exists x. auto.
    + reflexivity.
  - split; [left; reflexivity | reflexivity].
Qed.

(** ** Claims on the writers *)

(** C1.  The generator tests the truth value of the field, so a grid
    step that is present and zero is written as [None], exactly as an
    absent one: the text [gridStep: 0.0] gives a record whose
    [ground_grid_step] is [0.0], and the code generated for it is the
    code generated for the same record without the field. *)
Theorem zero_step_rendered_as_absent :
  exists maps info,
    extract_all_maps
      (Some [mk_level_dir (T "avg_kursk") true
               (Some (Readable (T "gridStep: 0.0")))])
    = Return maps
    /\ dict_get maps (T "avg_kursk") = Some info
    /\ ground_grid_step (data info) = Some 0%float
    /\ rust_option (ground_grid_step (data info)) = T "None"
    /\ rust_option None = T "None"
    /\ generate_rust_code maps
       = generate_rust_code [(T "avg_kursk", unknown_record (T "avg_kursk"))]
    /\ rust_option (Some 50%float) = T "Some(50.0)".
Proof.
  eexists. eexists. split; [reflexivity|]. split; [reflexivity|].
  repeat split; vm_compute; reflexivity.
Qed.

(** C3.  The JSON document lists the records in the order of discovery:
    for the directories [zulu] then [alpha], [zulu] comes first in the
    document, although [alpha] is the smaller name. *)
Theorem json_in_discovery_order :
  exists maps,
    extract_all_maps
      (Some [mk_level_dir (T "zulu") true (Some (Readable []));
             mk_level_dir (T "alpha") true (Some (Readable []))])
    = Return maps
    /\ json_order maps = [T "zulu"; T "alpha"]
    /\ text_ltb (T "alpha") (T "zulu") = true
    /\ json_dump maps
       = T "{" ++ newline_indent 1
         ++ json_string (T "zulu") ++ T ": "
         ++ json_encode 1 (info_value (unknown_record (T "zulu")))
         ++ T "," ++ newline_indent 1
         ++ json_string (T "alpha") ++ T ": "
         ++ json_encode 1 (info_value (unknown_record (T "alpha")))
         ++ newline_indent 0 ++ T "}".
Proof.
  eexists. split; [reflexivity|].
  repeat split; vm_compute; reflexivity.
Qed.

(** C2.  The two writers do not walk the records in the same order: for
    the directories [zulu] then [alpha], the JSON document has [zulu]
    then [alpha] and the generated code has [alpha] then [zulu]. *)
Theorem writers_order_differs :
  exists maps,
    extract_all_maps
      (Some [mk_level_dir (T "zulu") true (Some (Readable []));
             mk_level_dir (T "alpha") true (Some (Readable []))])
    = Return maps
    /\ json_order maps = [T "zulu"; T "alpha"]
    /\ rust_order maps = [T "alpha"; T "zulu"]
    /\ generate_rust_code maps
       = rust_entry (T "alpha", unknown_record (T "alpha")) ++ [nl]
         ++ rust_entry (T "zulu", unknown_record (T "zulu")).
Proof.
  eexists. split; [reflexivity|].
  repeat split; vm_compute; reflexivity.
Qed.

(** ** Floats: the number written for a float reads back *)

(** *** Rounding to binary64 *)

Lemma digits2_size (m : positive) : digits2_pos m = Pos.size m.
Proof. induction m; simpl; congruence. Qed.

Lemma digits2_log2 (m : positive) : Zpos (digits2_pos m) = Z.log2 (Zpos m) + 1.
Proof.
  rewrite digits2_size. destruct m; simpl; try reflexivity; lia.
Qed.

Lemma iter_pos_nat {A} (f : A -> A) (p : positive) (x : A) :
  iter_pos f p x = Nat.iter (Pos.to_nat p) f x.
Proof.
  revert x; induction p as [p IH|p IH|]; intros x; cbn [iter_pos].
  - rewrite !IH. rewrite Pos2Nat.inj_xI.
    replace (S (2 * Pos.to_nat p)) with (Pos.to_nat p + (Pos.to_nat p + 1))%nat by lia.
    rewrite !Nat.iter_add. simpl. reflexivity.
  - rewrite !IH. rewrite Pos2Nat.inj_xO.
    replace (2 * Pos.to_nat p)%nat with (Pos.to_nat p + Pos.to_nat p)%nat by lia.
    rewrite Nat.iter_add. reflexivity.
  - reflexivity.
Qed.

Lemma odd_cases (b : Z) :
  (Z.odd b = true /\ b mod 2 = 1) \/ (Z.odd b = false /\ b mod 2 = 0).
Proof.
  pose proof (Z.bit0_mod b) as H. rewrite Z.bit0_odd in H.
  destruct (Z.odd b); simpl in H; [left | right]; split; congruence.
Qed.

Lemma shr_1_spec (m : Z) (r s : bool) :
  0 <= m ->
  shr_1 (Build_shr_record m r s) = Build_shr_record (m / 2) (Z.odd m) (r || s).
Proof.
  intros H. destruct m as [|p|p]; [reflexivity| |lia].
  destruct p as [p|p|]; unfold shr_1.
  - f_equal. rewrite Pos2Z.inj_xI. symmetry.
    replace (2 * Z.pos p + 1) with (1 + Z.pos p * 2) by lia.
    rewrite Z.div_add by lia. reflexivity.
  - f_equal. rewrite Pos2Z.inj_xO. rewrite Z.mul_comm, Z.div_mul by lia. reflexivity.
  - reflexivity.
Qed.

(** After [k + 1] one-bit shifts *)
Lemma shr_iter (m : Z) (k : nat) :
  0 <= m ->
  Nat.iter (S k) shr_1 (Build_shr_record m false false)
  = Build_shr_record (m / 2 ^ Z.of_nat (S k))
      (Z.odd (m / 2 ^ Z.of_nat k))
      (negb (m mod 2 ^ Z.of_nat k =? 0)).
Proof.
  intros H. induction k as [|k IH].
  - change (Nat.iter 1 shr_1 ?x) with (shr_1 x).
    rewrite shr_1_spec by exact H.
    change (2 ^ Z.of_nat 1) with 2. change (2 ^ Z.of_nat 0) with 1.
    rewrite Z.div_1_r, Z.mod_1_r. reflexivity.
  - change (Nat.iter (S (S k)) shr_1 ?x) with (shr_1 (Nat.iter (S k) shr_1 x)).
    rewrite IH. rewrite shr_1_spec by (apply Z.div_pos; lia).
    assert (P : 0 < 2 ^ Z.of_nat k) by (apply Z.pow_pos_nonneg; lia).
    assert (E1 : 2 ^ Z.of_nat (S k) = 2 ^ Z.of_nat k * 2).
    { rewrite Nat2Z.inj_succ, Z.pow_succ_r by lia. lia. }
    assert (E2 : 2 ^ Z.of_nat (S (S k)) = 2 ^ Z.of_nat (S k) * 2).
    { rewrite (Nat2Z.inj_succ (S k)), Z.pow_succ_r by lia. lia. }
    f_equal.
    + rewrite E2. rewrite Z.div_div by lia. reflexivity.
    + rewrite E1. rewrite Z.rem_mul_r by lia.
      set (a := m mod 2 ^ Z.of_nat k). set (b := m / 2 ^ Z.of_nat k).
      assert (0 <= a) by (apply Z.mod_pos_bound; lia).
      destruct (odd_cases b) as [[O Q] | [O Q]]; rewrite O, Q.
      * simpl. symmetry. apply negb_true_iff, Z.eqb_neq. nia.
      * replace (a + 2 ^ Z.of_nat k * 0) with a by nia. reflexivity.
Qed.

Lemma round_shr (m : Z) (k : nat) :
  0 <= m ->
  let R := Nat.iter (S k) shr_1 (Build_shr_record m false false) in
  round_nearest_even (shr_m R) (loc_of_shr_record R)
  = round_half_even m (2 ^ Z.of_nat (S k)).
Proof.
  intros H R. unfold R. rewrite shr_iter by exact H.
  cbn [shr_m]. unfold round_half_even.
  assert (P : 0 < 2 ^ Z.of_nat k) by (apply Z.pow_pos_nonneg; lia).
  assert (E1 : 2 ^ Z.of_nat (S k) = 2 ^ Z.of_nat k * 2).
  { rewrite Nat2Z.inj_succ, Z.pow_succ_r by lia. lia. }
  rewrite E1. rewrite Z.rem_mul_r by lia.
  set (a := m mod 2 ^ Z.of_nat k). set (b := m / 2 ^ Z.of_nat k).
  assert (0 <= a < 2 ^ Z.of_nat k) by (apply Z.mod_pos_bound; lia).
  set (q := m / (2 ^ Z.of_nat k * 2)).
  destruct (odd_cases b) as [[O Q] | [O Q]]; rewrite O, Q.
  - destruct (a =? 0) eqn:A0.
    + apply Z.eqb_eq in A0. rewrite A0. cbn [negb loc_of_shr_record round_nearest_even].
      replace (2 * (0 + 2 ^ Z.of_nat k * 1) ?= 2 ^ Z.of_nat k * 2) with Eq
        by (symmetry; apply Z.compare_eq_iff; lia).
      reflexivity.
    + apply Z.eqb_neq in A0. cbn [negb loc_of_shr_record round_nearest_even].
      replace (2 * (a + 2 ^ Z.of_nat k * 1) ?= 2 ^ Z.of_nat k * 2) with Gt
        by (symmetry; apply Z.compare_gt_iff; lia).
      reflexivity.
  - replace (2 * (a + 2 ^ Z.of_nat k * 0) ?= 2 ^ Z.of_nat k * 2) with Lt
      by (symmetry; apply Z.compare_lt_iff; lia).
    destruct (a =? 0); reflexivity.
Qed.

Lemma fexp_eq (x : Z) : fexp 53 1024 x = Z.max (x - 53) (-1074).
Proof. reflexivity. Qed.

Lemma round_half_even_bounds (a b : Z) :
  0 <= a -> 0 < b ->
  a / b <= round_half_even a b <= a / b + 1.
Proof.
  intros Ha Hb. unfold round_half_even.
  destruct (2 * (a mod b) ?= b); [destruct (Z.even (a / b))| |]; lia.
Qed.

Lemma log2_lt_pow (m k : Z) : 0 < m -> 0 <= k -> Z.log2 m < k -> m < 2 ^ k.
Proof. intros Hm Hk H. apply Z.log2_lt_pow2; assumption. Qed.

Lemma shr_nonpos (R : shr_record) (e n : Z) : n <= 0 -> shr R e n = (R, e).
Proof. destruct n; [reflexivity | lia | reflexivity]. Qed.

Lemma binary_normalize_closed (m : positive) (e : Z) :
  let E := Z.max (Z.log2 (Zpos m) + 1 + e - 53) (-1074) in
  1 <= E - e ->
  binary_normalize 53 1024 (Zpos m) e false
  = finish (round_half_even (Zpos m) (2 ^ (E - e))) E.
Proof.
  intros E Hk.
  unfold binary_normalize, binary_round.
  rewrite digits2_log2, fexp_eq. fold E.
  unfold shl_align.
  remember (E - e) as K eqn:Ek.
  destruct K as [|kp|kp]; try lia.
  unfold binary_round_aux, shr_fexp.
  cbn [Zdigits2]. rewrite digits2_log2, fexp_eq. fold E. rewrite <- Ek.
  cbn [shr_record_of_loc shr].
  rewrite iter_pos_nat.
  destruct (Pos.to_nat kp) as [|k] eqn:Kn; [lia|].
  assert (Kz : Zpos kp = Z.of_nat (S k)) by lia.
  pose proof (round_shr (Zpos m) k ltac:(lia)) as RS. cbv zeta in RS.
  rewrite RS. rewrite <- Kz.
  replace (e + Z.pos kp) with E by lia.
  set (M := round_half_even (Z.pos m) (2 ^ Z.pos kp)).
  assert (P : 0 < 2 ^ Z.pos kp) by (apply Z.pow_pos_nonneg; lia).
  assert (Hq : Z.pos m / 2 ^ Z.pos kp < 2 ^ 53).
  { apply Z.div_lt_upper_bound; [exact P|].
    rewrite <- Z.pow_add_r by lia.
    apply log2_lt_pow; [lia | lia |].
    assert (Z.log2 (Z.pos m) + 1 + e - 53 <= E) by (unfold E; lia). lia. }
  pose proof (round_half_even_bounds (Zpos m) (2 ^ Z.pos kp) ltac:(lia) P) as HM.
  fold M in HM.
  assert (0 <= Z.pos m / 2 ^ Z.pos kp) by (apply Z.div_pos; lia).
  assert (EE : -1074 <= E) by (unfold E; lia).
  destruct M as [|Mp|Mp] eqn:EM; [| |lia].
  - (* zero *)
    cbn [Zdigits2]. rewrite shr_nonpos by (rewrite fexp_eq; lia).
    reflexivity.
  - cbn [Zdigits2]. rewrite digits2_log2, fexp_eq.
    unfold finish.
    destruct (Z.pos Mp =? 2 ^ 53) eqn:Q.
    + apply Z.eqb_eq in Q. rewrite Q.
      change (Z.log2 (2 ^ 53)) with 53.
      replace (Z.max (53 + 1 + E - 53) (-1074) - E) with 1 by lia.
      cbn [shr iter_pos]. change (2 ^ 53) with 9007199254740992.
      cbn [shr_1 shr_m].
      replace (E + 1 <=? 1024 - 53) with (E + 1 <=? 971) by reflexivity.
      reflexivity.
    + apply Z.eqb_neq in Q.
      assert (Z.log2 (Z.pos Mp) < 53).
      { apply Z.log2_lt_pow2; lia. }
      rewrite shr_nonpos by lia.
      cbn [shr_m]. reflexivity.
Qed.

Lemma div_mod_cross (A B N D : Z) :
  0 <= A -> 0 < B -> 0 < D -> A * D = N * B ->
  A / B = N / D /\ (A mod B) * D = (N mod D) * B.
Proof.
  intros HA HB HD H.
  pose proof (Z.div_mod A B ltac:(lia)) as E.
  pose proof (Z.mod_pos_bound A B HB) as R.
  set (q := A / B) in *. set (r := A mod B) in *.
  assert (Hr : (N - q * D) * B = r * D) by nia.
  assert (L : 0 <= N - q * D < D) by nia.
  assert (Q : q = N / D).
  { apply (Z.div_unique N D q (N - q * D)); [left; exact L | lia]. }
  split; [exact Q|].
  rewrite <- Hr. f_equal.
  apply (Z.mod_unique N D q (N - q * D)); [left; exact L | lia].
Qed.

Lemma compare_scale (a b p : Z) : 0 < p -> (a * p ?= b * p) = (a ?= b).
Proof.
  intros H. destruct (Z.compare_spec a b) as [E | E | E].
  - subst. apply Z.compare_refl.
  - apply Z.compare_lt_iff. nia.
  - apply Z.compare_gt_iff. nia.
Qed.

Lemma round_half_even_cross (A B N D : Z) :
  0 <= A -> 0 < B -> 0 < D -> A * D = N * B ->
  round_half_even A B = round_half_even N D.
Proof.
  intros HA HB HD H. destruct (div_mod_cross A B N D HA HB HD H) as [Q R].
  unfold round_half_even. rewrite <- Q.
  replace (2 * (N mod D) ?= D) with (2 * (A mod B) ?= B); [reflexivity|].
  rewrite <- (compare_scale (2 * (A mod B)) B D HD).
  rewrite <- (compare_scale (2 * (N mod D)) D B HB).
  f_equal; lia.
Qed.

Lemma round_half_even_sticky (N d j : Z) :
  0 <= N -> 0 < d -> 1 <= j ->
  round_half_even (2 * (N / d) + (if N mod d =? 0 then 0 else 1)) (2 ^ (j + 1))
  = round_half_even N (d * 2 ^ j).
Proof.
  intros HN Hd Hj.
  set (h := 2 ^ (j - 1)).
  assert (Hh : 0 < h) by (apply Z.pow_pos_nonneg; lia).
  assert (E1 : 2 ^ j = 2 * h).
  { unfold h. rewrite <- Z.pow_succ_r by lia. f_equal. lia. }
  assert (E2 : 2 ^ (j + 1) = 4 * h).
  { rewrite Z.pow_add_r by lia. rewrite E1. lia. }
  rewrite E1, E2.
  pose proof (Z.div_mod N d ltac:(lia)) as DN.
  pose proof (Z.mod_pos_bound N d Hd) as RN.
  set (qs := N / d) in *. set (rs := N mod d) in *.
  pose proof (Z.div_mod qs (2 * h) ltac:(lia)) as DQ.
  pose proof (Z.mod_pos_bound qs (2 * h) ltac:(lia)) as RQ.
  set (q := qs / (2 * h)) in *. set (u := qs mod (2 * h)) in *.
  set (st := if rs =? 0 then 0 else 1).
  assert (Hst : (rs = 0 /\ st = 0) \/ (0 < rs /\ st = 1)).
  { unfold st. destruct (rs =? 0) eqn:Q; [left | right].
    - apply Z.eqb_eq in Q. auto.
    - apply Z.eqb_neq in Q. split; [lia | reflexivity]. }
  assert (M1 : (2 * qs + st) / (4 * h) = q).
  { symmetry. apply (Z.div_unique _ _ q (2 * u + st)); [left; lia | lia]. }
  assert (M2 : (2 * qs + st) mod (4 * h) = 2 * u + st).
  { symmetry. apply (Z.mod_unique _ _ q (2 * u + st)); [left; lia | lia]. }
  assert (N1 : N / (d * (2 * h)) = q).
  { symmetry. apply (Z.div_unique _ _ q (d * u + rs)); [left; nia | nia]. }
  assert (N2 : N mod (d * (2 * h)) = d * u + rs).
  { symmetry. apply (Z.mod_unique _ _ q (d * u + rs)); [left; nia | nia]. }
  unfold round_half_even. rewrite M1, M2, N1, N2.
  replace (2 * (d * u + rs) ?= d * (2 * h)) with (2 * (2 * u + st) ?= 4 * h);
    [reflexivity|].
  destruct (Z.compare_spec u h) as [C | C | C].
  - subst u. rewrite C in *. destruct Hst as [[R0 S0] | [R0 S0]]; rewrite S0.
    + rewrite R0. rewrite !(proj2 (Z.compare_eq_iff _ _)); [reflexivity | lia | lia].
    + rewrite !(proj2 (Z.compare_gt_iff _ _)); [reflexivity | nia | lia].
  - rewrite !(proj2 (Z.compare_lt_iff _ _)); [reflexivity | nia | lia].
  - rewrite !(proj2 (Z.compare_gt_iff _ _)); [reflexivity | nia | lia].
Qed.

Lemma div_lt_inv (a b c : Z) : 0 < b -> a / b < c -> a < b * c.
Proof.
  intros Hb H. pose proof (Z.div_mod a b ltac:(lia)).
  pose proof (Z.mod_pos_bound a b Hb). nia.
Qed.

Lemma div_le_inv (a b c : Z) : 0 < b -> c <= a / b -> b * c <= a.
Proof.
  intros Hb H. pose proof (Z.div_mod a b ltac:(lia)).
  pose proof (Z.mod_pos_bound a b Hb). nia.
Qed.

Lemma pow2_split (e s : Z) :
  0 <= s -> 0 <= e + s ->
  2 ^ Z.max e 0 * 2 ^ s = 2 ^ Z.max (- e) 0 * 2 ^ (e + s).
Proof.
  intros Hs Hes. destruct (Z_le_gt_dec 0 e) as [He | He].
  - rewrite (Z.max_l e 0), (Z.max_r (- e) 0) by lia.
    rewrite Z.pow_add_r by lia. change (2 ^ 0) with 1. lia.
  - rewrite (Z.max_r e 0), (Z.max_l (- e) 0) by lia.
    change (2 ^ 0) with 1. rewrite <- Z.pow_add_r by lia.
    replace (- e + (e + s)) with s by lia. lia.
Qed.

Lemma quotient_large (n d : Z) :
  0 < n -> 0 < d -> 2 ^ 63 <= n * 2 ^ (Z.log2 d + 64) / d.
Proof.
  intros Hn Hd.
  pose proof (Z.log2_nonneg d) as L0.
  destruct (Z.log2_spec d Hd) as [_ L].
  apply Z.div_le_lower_bound; [exact Hd|].
  rewrite Z.pow_succ_r in L by lia.
  replace (Z.log2 d + 64) with (Z.log2 d + 1 + 63) by lia.
  rewrite (Z.pow_add_r 2 (Z.log2 d + 1) 63) by lia.
  rewrite Z.pow_add_r by lia. change (2 ^ 1) with 2.
  assert (Hp : 0 < 2 ^ Z.log2 d) by (apply Z.pow_pos_nonneg; lia).
  assert (Hc : 0 < 2 ^ 63) by reflexivity.
  generalize dependent (2 ^ 63). generalize dependent (2 ^ Z.log2 d).
  intros P L HP c Hc.
  assert (d * c <= 1 * (P * 2 * c)) by nia.
  assert (1 * (P * 2 * c) <= n * (P * 2 * c)) by (apply Z.mul_le_mono_nonneg_r; nia).
  lia.
Qed.

Lemma round_ratio_spec (n d e A B : Z) :
  0 < n -> 0 < d -> 0 < B -> -1074 <= e ->
  A * (d * 2 ^ Z.max e 0) = n * 2 ^ Z.max (- e) 0 * B ->
  A / B < 2 ^ 53 -> (2 ^ 52 <= A / B \/ e = -1074) ->
  round_ratio n d = SF2Prim (finish (round_half_even A B) e).
Proof.
  intros Hn Hd HB He Hx Hq Hc.
  unfold round_ratio.
  set (s := Z.log2 d + 64).
  pose proof (Z.log2_nonneg d) as L0.
  assert (Hs : 64 <= s) by (unfold s; lia).
  set (N := n * 2 ^ s).
  pose proof (quotient_large n d Hn Hd) as Hqs. fold s in Hqs. fold N in Hqs.
  set (qs := N / d) in *. set (rs := N mod d).
  set (st := if rs =? 0 then 0 else 1).
  assert (Hst : 0 <= st <= 1) by (unfold st; destruct (rs =? 0); lia).
  set (pe := 2 ^ Z.max e 0) in *. set (ne := 2 ^ Z.max (- e) 0) in *.
  assert (Ppe : 0 < pe) by (apply Z.pow_pos_nonneg; lia).
  assert (Pne : 0 < ne) by (apply Z.pow_pos_nonneg; lia).
  assert (P2s : 0 < 2 ^ s) by (apply Z.pow_pos_nonneg; lia).
  assert (HN : 0 < N) by (unfold N; nia).
  assert (HA : 0 < A) by nia.
  (* the exponent is far above the scale *)
  assert (HA53 : A < B * 2 ^ 53) by (apply div_lt_inv; assumption).
  assert (HN63 : d * 2 ^ 63 <= N) by (apply div_le_inv; assumption).
  assert (Hes : 10 < e + s).
  { assert (X : 2 ^ 10 * ne < pe * 2 ^ s).
    { assert (X1 : A * pe * 2 ^ s * d = N * ne * B) by (unfold N; nia).
      assert (X2 : d * (2 ^ 63 * ne * B) <= d * (A * pe * 2 ^ s)) by nia.
      apply Z.mul_le_mono_pos_l in X2; [|exact Hd].
      assert (X3 : A * (pe * 2 ^ s) < B * 2 ^ 53 * (pe * 2 ^ s)).
      { apply Z.mul_lt_mono_pos_r; [nia | exact HA53]. }
      change (2 ^ 63) with (2 ^ 10 * 2 ^ 53) in X2.
      assert (X4 : (B * 2 ^ 53) * (2 ^ 10 * ne) < (B * 2 ^ 53) * (pe * 2 ^ s)) by nia.
      apply Z.mul_lt_mono_pos_l in X4; [exact X4 | nia]. }
    unfold pe, ne in X. destruct (Z_le_gt_dec 0 e) as [E0 | E0].
    - rewrite (Z.max_l e 0), (Z.max_r (- e) 0) in X by lia.
      change (2 ^ 0) with 1 in X. rewrite Z.mul_1_r in X.
      rewrite <- Z.pow_add_r in X by lia.
      apply Z.pow_lt_mono_r_iff in X; lia.
    - rewrite (Z.max_r e 0), (Z.max_l (- e) 0) in X by lia.
      change (2 ^ 0) with 1 in X. rewrite <- Z.pow_add_r in X by lia.
      rewrite Z.mul_1_l in X.
      apply Z.pow_lt_mono_r_iff in X; lia. }
  set (j := e + s).
  set (D := d * 2 ^ j).
  assert (P2j : 0 < 2 ^ j) by (apply Z.pow_pos_nonneg; lia).
  assert (HD : 0 < D) by (unfold D; nia).
  assert (Cross : A * D = N * B).
  { pose proof (pow2_split e s ltac:(lia) ltac:(lia)) as K.
    fold pe ne j in K.
    assert (X : ne * (A * D) = ne * (N * B)) by (unfold D, N; nia).
    apply Z.mul_cancel_l in X; lia. }
  destruct (div_mod_cross A B N D ltac:(lia) HB HD Cross) as [Qeq _].
  set (m := 2 * qs + st).
  assert (Hm : 0 < m) by (unfold m; change (2 ^ 63) with 9223372036854775808 in Hqs; lia).
  assert (Mq : m / 2 ^ (j + 1) = A / B).
  { rewrite Qeq. unfold D.
    rewrite Z.pow_add_r by lia. change (2 ^ 1) with 2.
    rewrite (Z.mul_comm (2 ^ j) 2), <- Z.div_div by lia.
    replace (m / 2) with qs.
    - unfold qs. rewrite Z.div_div by lia. reflexivity.
    - apply (Z.div_unique m 2 qs st); [left; lia | unfold m; lia]. }
  assert (P2j1 : 0 < 2 ^ (j + 1)) by (apply Z.pow_pos_nonneg; lia).
  assert (U : m < 2 ^ (j + 1) * 2 ^ 53).
  { apply div_lt_inv; [exact P2j1 | rewrite Mq; exact Hq]. }
  rewrite <- Z.pow_add_r in U by lia.
  assert (LU : Z.log2 m < j + 1 + 53) by (apply Z.log2_lt_pow2; lia).
  assert (EE : Z.max (Z.log2 m + 1 + (- s - 1) - 53) (-1074) = e).
  { destruct Hc as [Hc | Hc].
    - assert (V : 2 ^ (j + 1) * 2 ^ 52 <= m).
      { apply div_le_inv; [exact P2j1 | rewrite Mq; exact Hc]. }
      rewrite <- Z.pow_add_r in V by lia.
      apply Z.log2_le_pow2 in V; [|lia]. unfold j in *. lia.
    - unfold j in *. lia. }
  destruct m as [|mp|mp] eqn:Em; try lia.
  pose proof (binary_normalize_closed mp (- s - 1)) as BN. cbv zeta in BN.
  rewrite EE in BN. rewrite BN by (unfold j in *; lia).
  f_equal. f_equal.
  replace (e - (- s - 1)) with (j + 1) by (unfold j; lia).
  rewrite <- Em. unfold m, qs, st, rs.
  rewrite (round_half_even_sticky N d j) by lia.
  fold D. symmetry. apply round_half_even_cross; lia.
Qed.

Lemma ratio_exponent (n d : Z) :
  0 < n -> 0 < d ->
  exists e,
    -1074 <= e
    /\ n * 2 ^ Z.max (- e) 0 / (d * 2 ^ Z.max e 0) < 2 ^ 53
    /\ (2 ^ 52 <= n * 2 ^ Z.max (- e) 0 / (d * 2 ^ Z.max e 0) \/ e = -1074).
Proof.
  intros Hn Hd.
  set (s := Z.log2 d + 64).
  pose proof (Z.log2_nonneg d) as L0.
  assert (Hs : 64 <= s) by (unfold s; lia).
  set (N := n * 2 ^ s).
  pose proof (quotient_large n d Hn Hd) as Hqs. fold s in Hqs. fold N in Hqs.
  set (qs := N / d) in *. set (rs := N mod d).
  set (st := if rs =? 0 then 0 else 1).
  assert (Hst : 0 <= st <= 1) by (unfold st; destruct (rs =? 0); lia).
  set (m := 2 * qs + st).
  assert (Hm : 2 ^ 64 <= m).
  { unfold m. change (2 ^ 64) with (2 * 2 ^ 63). lia. }
  assert (Hm0 : 0 < m) by (change (2 ^ 64) with 18446744073709551616 in Hm; lia).
  assert (Lm : 64 <= Z.log2 m) by (apply Z.log2_le_pow2; lia).
  set (e := Z.max (Z.log2 m - s - 53) (-1074)).
  exists e.
  set (pe := 2 ^ Z.max e 0). set (ne := 2 ^ Z.max (- e) 0).
  assert (Ppe : 0 < pe) by (apply Z.pow_pos_nonneg; lia).
  assert (Pne : 0 < ne) by (apply Z.pow_pos_nonneg; lia).
  assert (P2s : 0 < 2 ^ s) by (apply Z.pow_pos_nonneg; lia).
  set (j := e + s).
  assert (Hj : 11 <= j) by (unfold j, e; lia).
  set (D := d * 2 ^ j).
  assert (P2j : 0 < 2 ^ j) by (apply Z.pow_pos_nonneg; lia).
  assert (HD : 0 < D) by (unfold D; nia).
  assert (Cross : (n * ne) * D = N * (d * pe)).
  { pose proof (pow2_split e s ltac:(lia) ltac:(lia)) as K.
    fold pe ne j in K. unfold D, N. nia. }
  destruct (div_mod_cross (n * ne) (d * pe) N D ltac:(nia) ltac:(nia) HD Cross)
    as [Qeq _].
  assert (Mq : m / 2 ^ (j + 1) = n * ne / (d * pe)).
  { rewrite Qeq. unfold D.
    rewrite Z.pow_add_r by lia. change (2 ^ 1) with 2.
    rewrite (Z.mul_comm (2 ^ j) 2), <- Z.div_div by lia.
    replace (m / 2) with qs.
    - unfold qs. rewrite Z.div_div by lia. reflexivity.
    - apply (Z.div_unique m 2 qs st); [left; lia | unfold m; lia]. }
  assert (P2j1 : 0 < 2 ^ (j + 1)) by (apply Z.pow_pos_nonneg; lia).
  destruct (Z.log2_spec m Hm0) as [Lo Hi].
  split; [unfold e; lia|]. rewrite <- Mq. split.
  - apply Z.div_lt_upper_bound; [exact P2j1|].
    rewrite <- Z.pow_add_r by lia.
    eapply Z.lt_le_trans; [exact Hi|].
    apply Z.pow_le_mono_r; [lia|]. unfold j, e. lia.
  - destruct (Z.eq_dec e (-1074)) as [E | E]; [right; exact E | left].
    apply Z.div_le_lower_bound; [exact P2j1|].
    rewrite <- Z.pow_add_r by lia.
    eapply Z.le_trans; [|exact Lo].
    apply Z.pow_le_mono_r; [lia|]. unfold j, e in *. lia.
Qed.


(** *** A ratio near a float rounds to it *)






(** *** Seventeen digits are enough *)













(** *** The position of the decimal point *)






(** *** Digit strings *)


Lemma fold_digits_acc (s : text) (acc : Z) :
  fold_left (fun a c => 10 * a + digit_val c) s acc
  = acc * 10 ^ Z.of_nat (List.length s) + digits_val s.
Proof.
  unfold digits_val. revert acc; induction s as [|c s IH]; intros acc.
  - simpl. lia.
  - cbn [fold_left List.length]. rewrite IH, (IH (10 * 0 + digit_val c)).
    rewrite Nat2Z.inj_succ, Z.pow_succ_r by lia. lia.
Qed.

Lemma digits_val_app (a b : text) :
  digits_val (a ++ b)
  = digits_val a * 10 ^ Z.of_nat (List.length b) + digits_val b.
Proof.
  unfold digits_val at 1. rewrite fold_left_app.
  fold (digits_val a). apply fold_digits_acc.
Qed.

Lemma digits_val_cons (c : ascii) (s : text) :
  digits_val (c :: s)
  = digit_val c * 10 ^ Z.of_nat (List.length s) + digits_val s.
Proof.
  change (c :: s) with ([c] ++ s). rewrite digits_val_app.
  unfold digits_val at 1. cbn [fold_left]. lia.
Qed.


Lemma digits_val_nonneg (s : text) : digits s -> 0 <= digits_val s.
Proof.
  unfold digits. induction s as [|c s IH]; intros H; [unfold digits_val; simpl; lia|].
  cbn [forallb] in H. apply andb_true_iff in H. destruct H as [Hc Hs].
  rewrite digits_val_cons. specialize (IH Hs).
  unfold is_digit in Hc. apply andb_true_iff in Hc. destruct Hc as [H1 H2].
  apply Z.leb_le in H1, H2.
  assert (0 <= 10 ^ Z.of_nat (List.length s)) by (apply Z.pow_nonneg; lia).
  unfold digit_val. nia.
Qed.

Lemma digits_app (a b : text) : digits (a ++ b) <-> digits a /\ digits b.
Proof. unfold digits. rewrite forallb_app. apply andb_true_iff. Qed.





(** [decimal] *)



(** Trailing zeros *)






(** The numbers [format_repr] lays out, read by the decoder *)









(** *** [repr] reads back *)

Lemma round_ratio_zero (d : Z) : 0 < d -> round_ratio 0 d = zero.
Proof.
  intros H. unfold round_ratio.
  rewrite Z.mul_0_l, Z.div_0_l, Z.mod_0_l by lia. reflexivity.
Qed.










(** *** The floats of an extracted collection, and integers *)


Lemma eqb_refl_spec (f : spec_float) :
  f <> S754_nan -> SFeqb f f = true.
Proof.
  destruct f as [s | s | | s m e]; intros H; try reflexivity.
  - destruct s; reflexivity.
  - contradiction.
  - unfold SFeqb, SFcompare. rewrite Z.compare_refl, Pos.compare_cont_refl.
    destruct s; reflexivity.
Qed.

Lemma finish_valid (M e : Z) :
  -1074 <= e -> 0 <= M <= 2 ^ 53 -> (2 ^ 52 <= M \/ e = -1074) ->
  valid_binary (finish M e) = true /\ finish M e <> S754_nan.
Proof.
  intros He HM Hc. unfold finish.
  destruct M as [|p|p]; [split; [reflexivity | discriminate] | | lia].
  destruct (Z.pos p =? 2 ^ 53) eqn:Q.
  - destruct (e + 1 <=? 971) eqn:B; [|split; [reflexivity | discriminate]].
    apply Z.leb_le in B. split; [|discriminate].
    unfold valid_binary, bounded, canonical_mantissa.
    rewrite digits2_log2, fexp_eq.
    change (Z.log2 (Z.pos 4503599627370496)) with 52.
    apply andb_true_iff.
    split; [apply Z.eqb_eq | apply Z.leb_le; change (emax - prec) with 971];
      lia.
  - apply Z.eqb_neq in Q.
    destruct (e <=? 971) eqn:B; [|split; [reflexivity | discriminate]].
    apply Z.leb_le in B. split; [|discriminate].
    unfold valid_binary, bounded, canonical_mantissa.
    rewrite digits2_log2, fexp_eq.
    assert (L : Z.log2 (Z.pos p) < 53) by (apply Z.log2_lt_pow2; lia).
    apply andb_true_iff.
    split; [apply Z.eqb_eq | apply Z.leb_le; change (emax - prec) with 971; lia].
    destruct Hc as [Hc | Hc]; [|lia].
    assert (52 <= Z.log2 (Z.pos p)) by (apply Z.log2_le_pow2; lia). lia.
Qed.

(** A rounded ratio is a number: zero, finite or infinite. *)
Lemma round_ratio_number (n d : Z) :
  0 <= n -> 0 < d ->
  PrimFloat.eqb (round_ratio n d) (round_ratio n d) = true.
Proof.
  intros Hn Hd. destruct (Z.eq_dec n 0) as [-> | N].
  - rewrite round_ratio_zero by exact Hd. reflexivity.
  - destruct (ratio_exponent n d ltac:(lia) Hd) as [e [He [Hq Hc]]].
    set (A := n * 2 ^ Z.max (- e) 0) in *. set (B := d * 2 ^ Z.max e 0) in *.
    assert (Ppe : 0 < 2 ^ Z.max e 0) by (apply Z.pow_pos_nonneg; lia).
    assert (Pne : 0 < 2 ^ Z.max (- e) 0) by (apply Z.pow_pos_nonneg; lia).
    assert (HB : 0 < B) by (unfold B; nia).
    assert (HA : 0 <= A) by (unfold A; nia).
    rewrite (round_ratio_spec n d e A B ltac:(lia) Hd HB He
               ltac:(unfold A, B; lia) Hq Hc).
    pose proof (round_half_even_bounds A B HA HB) as RB.
    assert (0 <= A / B) by (apply Z.div_pos; lia).
    destruct (finish_valid (round_half_even A B) e He ltac:(lia)
                ltac:(destruct Hc; [left; lia | right; assumption]))
      as [V NN].
    rewrite eqb_spec, (Prim2SF_SF2Prim _ V). apply eqb_refl_spec. exact NN.
Qed.

Lemma py_float_number (s : text) (x : float) :
  py_float s = Return x -> PrimFloat.eqb x x = true.
Proof.
  unfold py_float.
  pose proof (span_spec is_digit s) as S1.
  destruct (span is_digit s) as [ip rest]. cbn [fst snd] in S1.
  destruct S1 as [_ [D1 _]].
  destruct rest as [|c fp].
  - destruct (is_nil ip); [discriminate|].
    intros H; injection H as <-.
    apply round_ratio_number; [apply digits_val_nonneg; exact D1 | lia].
  - destruct (Ascii.eqb c "."); [|discriminate].
    pose proof (span_spec is_digit fp) as S2.
    destruct (span is_digit fp) as [fd rest']. cbn [fst snd] in S2.
    destruct S2 as [_ [D2 _]].
    destruct (is_nil rest' && negb (is_nil ip && is_nil fd)); [|discriminate].
    intros H; injection H as <-.
    apply round_ratio_number.
    + apply digits_val_nonneg. apply digits_app. split; assumption.
    + apply Z.pow_pos_nonneg; lia.
Qed.

Lemma extract_step_number (r : regex) (content : text) (x : float) :
  extract_step r content = Return (Some x) -> PrimFloat.eqb x x = true.
Proof.
  unfold extract_step. destruct (search r content) as [m|]; [|discriminate].
  destruct (py_float (group m 1)) as [y|e] eqn:P; [|discriminate].
  cbn [bind]. intros H; injection H as <-. exact (py_float_number _ _ P).
Qed.

Lemma extract_size_number (content : text) (w h : float) :
  extract_size content = Return (Some (w, h)) ->
  PrimFloat.eqb w w = true /\ PrimFloat.eqb h h = true.
Proof.
  unfold extract_size. destruct (search size_re content) as [m|]; [|discriminate].
  destruct (py_float (group m 1)) as [y|e] eqn:P; [|discriminate].
  cbn [bind].
  destruct (py_float (group m 2)) as [z|e] eqn:Q; [|discriminate].
  cbn [bind]. intros H; injection H as <- <-.
  split; [exact (py_float_number _ _ P) | exact (py_float_number _ _ Q)].
Qed.

Lemma level_record_numbers (level : level_dir) (r : map_info) :
  level_record level = Some r ->
  Forall (fun x => PrimFloat.eqb x x = true) (info_floats r).
Proof.
  unfold level_record. destruct (is_dir level); [|discriminate].
  destruct (level_blk level) as [[|content]|]; try discriminate.
  destruct (parse_blk_file (Readable content)) as [[d|]|] eqn:P;
    try discriminate.
  intros H; injection H as <-.
  apply parse_blk_file_some, parse_blk_text_return in P.
  destruct P as [P1 [P2 [P3 [P4 _]]]].
  unfold info_floats. cbn [data].
  repeat (apply Forall_app; split).
  - destruct (map_size d) as [[w h]|]; [|constructor].
    destruct (extract_size_number _ _ _ P1). repeat constructor; assumption.
  - destruct (ground_grid_step d); [|constructor].
    repeat constructor. exact (extract_step_number _ _ _ P2).
  - destruct (air_grid_step d); [|constructor].
    repeat constructor. exact (extract_step_number _ _ _ P3).
  - destruct (naval_grid_step d); [|constructor].
    repeat constructor. exact (extract_step_number _ _ _ P4).
Qed.

Lemma dict_set_forall {V} (P : text * V -> Prop) (d : dict V) (k : text)
  (v : V) :
  Forall P d -> P (k, v) -> Forall P (dict_set d k v).
Proof.
  intros H Hv. induction H as [|[k' v'] d Hk Hd IH]; cbn [dict_set].
  - repeat constructor. exact Hv.
  - destruct (text_eqb k' k) eqn:E; constructor; try assumption.
    apply text_eqb_eq in E. subst. exact Hv.
Qed.

Lemma visit_levels_numbers (levels : list level_dir)
  (maps maps' : dict map_info) :
  numbers_only maps -> visit_levels maps levels = Return maps' ->
  numbers_only maps'.
Proof.
  revert maps; induction levels as [|l levels IH]; intros maps N H;
    cbn [visit_levels] in H.
  - injection H as <-. exact N.
  - rewrite visit_level_record in H. cbn [bind] in H.
    refine (IH _ _ H).
    destruct (level_record l) as [r|] eqn:R; [|exact N].
    apply dict_set_forall; [exact N|]. cbn [snd].
    exact (level_record_numbers _ _ R).
Qed.

(** The floats of an extracted collection are numbers. *)
Lemma extract_all_maps_numbers (levels : option (list level_dir))
  (maps : dict map_info) :
  extract_all_maps levels = Return maps -> numbers_only maps.
Proof.
  destruct levels as [entries|]; cbn [extract_all_maps]; intros H.
  - eapply visit_levels_numbers; [|exact H]. constructor.
  - injection H as <-. constructor.
Qed.


(** ** The decoder reads back what the encoder writes *)


(** *** Strings *)




(** *** Numbers *)









(** *** Whitespace and the first character of a value *)








(** *** Atoms *)




(** *** Arrays and objects *)







Lemma dict_set_fresh {V} (d : dict V) (k : text) (v : V) :
  ~ In k (map fst d) -> dict_set d k v = d ++ [(k, v)].
Proof.
  induction d as [|[k' v'] d IH]; simpl; intros N; [reflexivity|].
  destruct (text_eqb k' k) eqn:E.
  - apply text_eqb_eq in E. tauto.
  - rewrite IH; [reflexivity | tauto].
Qed.








(** *** The fuel [json_loads] gives is enough *)





(** *** The collection as a well-formed value *)



(** *** The value determines the collection *)






(** The collection the record builder returns is a dictionary. *)
Lemma extract_all_maps_keys (levels : option (list level_dir))
  (maps : dict map_info) :
  extract_all_maps levels = Return maps -> NoDup (keys maps).
Proof.
  destruct levels as [entries|]; simpl; intros H.
  - eapply visit_levels_keys_nodup; [|exact H]. constructor.
  - inversion H; subst. constructor.
Qed.

(** ** Claim on the round trip *)



(** * Further properties of the code *)

(** ** Game modes *)

Lemma detect_modes_cases (content : text) :
  let g := contains (T "ground") (lower content)
           || contains (T "tank") (lower content) in
  let a := contains (T "air") (lower content) in
  let n := contains (T "naval") (lower content) in
  detect_modes content
  = if g || a || n
    then (if g then [T "ground"] else []) ++ (if a then [T "air"] else [])
         ++ (if n then [T "naval"] else [])
    else [T "unknown"].
Proof.
  unfold detect_modes.
  destruct (contains (T "ground") (lower content)
            || contains (T "tank") (lower content)),
    (contains (T "air") (lower content)),
    (contains (T "naval") (lower content)); reflexivity.
Qed.

(** X1.  The game modes of an extracted record are never empty and are
    one of eight lists: [["unknown"]] alone, or the detected modes in the
    fixed order ground, air, naval, each at most once.  A mode is listed
    exactly when its word occurs in the lower-cased text (["ground"] also
    for the word [tank]), and ["unknown"] exactly when none does. *)
Theorem game_modes_shape (content : text) (d : blk_data)
  (Hd : parse_blk_file (Readable content) = Return (Some d)) :
  In (game_modes d) mode_lists
  /\ (In (T "ground") (game_modes d)
      <-> contains (T "ground") (lower content) = true
          \/ contains (T "tank") (lower content) = true)
  /\ (In (T "air") (game_modes d)
      <-> contains (T "air") (lower content) = true)
  /\ (In (T "naval") (game_modes d)
      <-> contains (T "naval") (lower content) = true)
  /\ (In (T "unknown") (game_modes d)
      <-> contains (T "ground") (lower content) = false
          /\ contains (T "tank") (lower content) = false
          /\ contains (T "air") (lower content) = false
          /\ contains (T "naval") (lower content) = false).
Proof.
  apply parse_blk_file_some, parse_blk_text_return in Hd.
  destruct Hd as [_ [_ [_ [_ Hm]]]]. rewrite <- Hm, detect_modes_cases.
  destruct (contains (T "ground") (lower content)),
    (contains (T "tank") (lower content)),
    (contains (T "air") (lower content)),
    (contains (T "naval") (lower content));
    cbv [orb app mode_lists];
    (split; [simpl; tauto|]);
    repeat split; intros; simpl in *;
      repeat match goal with
             | H : _ \/ _ |- _ => destruct H
             | H : _ /\ _ |- _ => destruct H
             end;
      try discriminate; try contradiction; auto.
Qed.

Lemma game_modes_shape_witness :
  exists d,
    parse_blk_file (Readable (T "Tank range, AIR field")) = Return (Some d)
    /\ In (game_modes d) mode_lists
    /\ In (T "air") (game_modes d).
Proof.
  eexists. split; [reflexivity|].
  destruct (game_modes_shape (T "Tank range, AIR field") _ eq_refl)
    as [H1 [_ [H2 _]]].
  split; [exact H1 | apply H2; reflexivity].
Defined.

(** A text without the first character of a key has no match of a
    pattern that starts with this key. *)
Lemma search_key_absent (c : ascii) (k : text) (r : regex) (s : text) :
  ~ In c s -> search (map Chr (c :: k) ++ r) s = None.
Proof.
  intros N. destruct (search (map Chr (c :: k) ++ r) s) eqn:E;
    [|reflexivity].
  exfalso. apply search_some in E. destruct E as [a [b [E M]]].
  apply match_lit_prefix in M. destruct M as [s' [-> _]].
  apply N. rewrite E. apply in_or_app. right. left. reflexivity.
Qed.

Lemma no_small_letter (content : text) (c : ascii) :
  forallb (fun x => negb ((97 <=? code x) && (code x <=? 122))) content = true ->
  (97 <=? code c) && (code c <=? 122) = true -> ~ In c content.
Proof.
  intros H L I. rewrite forallb_forall in H. specialize (H c I).
  rewrite L in H. discriminate H.
Qed.

(** X2.  The numeric keys are matched with regard to letter case, the
    mode words without: a config file in which none of the small letters
    a to z occurs yields a record without any numeric field, whatever
    numbers it holds, and the words GROUND or TANK, AIR and NAVAL in a
    config file give the modes ground, air and naval. *)
Theorem upper_case_config (content : text)
  (Hcaps : forallb (fun c => negb ((97 <=? code c) && (code c <=? 122)))
             content = true) :
  parse_blk_file (Readable content)
  = Return (Some (mk_blk_data None None None None (detect_modes content)))
  /\ (contains (T "GROUND") content = true
      \/ contains (T "TANK") content = true ->
      In (T "ground") (detect_modes content))
  /\ (contains (T "AIR") content = true ->
      In (T "air") (detect_modes content))
  /\ (contains (T "NAVAL") content = true ->
      In (T "naval") (detect_modes content)).
Proof.
  split; [|split; [|split]].
  - unfold parse_blk_file, read_file, parse_blk_text, extract_size,
      extract_step.
    cbn [bind].
    rewrite (search_key_absent "m" (T "apSize") _ content
               (no_small_letter content "m" Hcaps eq_refl)
             : search size_re content = None).
    rewrite (search_key_absent "g" (T "ridStep") _ content
               (no_small_letter content "g" Hcaps eq_refl)
             : search ground_re content = None).
    rewrite (search_key_absent "a" (T "irGridStep") _ content
               (no_small_letter content "a" Hcaps eq_refl)
             : search air_re content = None).
    rewrite (search_key_absent "n" (T "avalGridStep") _ content
               (no_small_letter content "n" Hcaps eq_refl)
             : search naval_re content = None).
    reflexivity.
  - intros H. rewrite detect_modes_cases. cbv zeta.
    assert (G : contains (T "ground") (lower content)
                || contains (T "tank") (lower content) = true).
    { apply orb_true_iff. destruct H as [H | H]; [left | right];
        exact (contains_lower _ _ H). }
    rewrite G. cbn [orb app]. left. reflexivity.
  - intros H. apply detect_modes_air. exact (contains_lower _ _ H).
  - intros H. apply detect_modes_naval. exact (contains_lower _ _ H).
Qed.

Lemma upper_case_config_witness :
  parse_blk_file (Readable (T "MAPSIZE: [65536, 65536] GRIDSTEP: 200 TANK"))
  = Return (Some (mk_blk_data None None None None [T "ground"])).
Proof.
  exact (proj1 (upper_case_config
                  (T "MAPSIZE: [65536, 65536] GRIDSTEP: 200 TANK") eq_refl)).
Defined.

(** ** Which match the extractor uses *)

Lemma search_here (r : regex) (s : text) (g : groups) :
  match_here r s = Some g -> search r s = Some g.
Proof. intros H. destruct s; simpl; rewrite H; reflexivity. Qed.

Lemma search_next (r : regex) (c : ascii) (s : text) :
  match_here r (c :: s) = None -> search r (c :: s) = search r s.
Proof. intros H. simpl. rewrite H. reflexivity. Qed.

(** ** Values the extractor recognises *)

Lemma match_lit_app (k : text) (r : regex) (s : text) :
  match_here (map Chr k ++ r) (k ++ s) = match_here r s.
Proof.
  induction k as [|c k IH]; simpl; [reflexivity|].
  rewrite Ascii.eqb_refl. exact IH.
Qed.

(** A greedy [k*] followed by something that matches takes the whole run
    of [k] characters. *)
Lemma star_greedy (k : char_class) (cont : text -> option groups)
  (w s : text) (g : groups) :
  forallb (in_class k) w = true -> head_not k s -> cont s = Some g ->
  star k cont (w ++ s) = Some g.
Proof.
  intros Hw Hs Hc. induction w as [|c w IH]; simpl in *.
  - destruct s as [|x s]; simpl in *; [exact Hc|]. rewrite Hs. exact Hc.
  - apply andb_true_iff in Hw. destruct Hw as [-> Hw].
    rewrite (IH Hw). reflexivity.
Qed.

Lemma group_greedy (k : char_class) (cont : text -> option groups)
  (acc ds s : text) (g : groups) :
  forallb (in_class k) ds = true -> head_not k s -> cont s = Some g ->
  group_more k cont acc (ds ++ s) = Some ((acc ++ ds) :: g).
Proof.
  intros Hd Hs Hc. revert acc. induction ds as [|c ds IH]; intros acc;
    simpl in *.
  - rewrite app_nil_r.
    destruct s as [|x s]; simpl in *; [rewrite Hc; reflexivity|].
    rewrite Hs, Hc. reflexivity.
  - apply andb_true_iff in Hd. destruct Hd as [-> Hd].
    rewrite (IH Hd), <- app_assoc. reflexivity.
Qed.

Lemma space_not_digit_dot (c : ascii) :
  is_space c = true -> in_class DigitDot c = false.
Proof.
  destruct c as [[] [] [] [] [] [] [] []]; vm_compute; intros H;
    first [reflexivity | discriminate H].
Qed.

Lemma digit_dot_not_space (c : ascii) :
  in_class DigitDot c = true -> is_space c = false.
Proof.
  destruct c as [[] [] [] [] [] [] [] []]; vm_compute; intros H;
    first [reflexivity | discriminate H].
Qed.

Lemma head_not_spaces (k : char_class) (w : text) (c : ascii) (s : text) :
  (forall x, is_space x = true -> in_class k x = false) ->
  forallb is_space w = true -> in_class k c = false ->
  head_not k (w ++ c :: s).
Proof.
  intros Hk Hw Hc. destruct w as [|x w]; simpl in *; [exact Hc|].
  apply andb_true_iff in Hw. destruct Hw as [Hx _]. apply Hk. exact Hx.
Qed.

Lemma head_not_digits (ds s : text) :
  ds <> [] -> forallb (in_class DigitDot) ds = true ->
  head_not Space (ds ++ s).
Proof.
  intros Hn Hd. destruct ds as [|x ds]; [congruence|]. simpl in *.
  apply andb_true_iff in Hd. destruct Hd as [Hx _].
  apply digit_dot_not_space. exact Hx.
Qed.

Lemma match_group (k : char_class) (r : regex) (ds s : text) (g : groups) :
  ds <> [] -> forallb (in_class k) ds = true -> head_not k s ->
  match_here r s = Some g ->
  match_here (Group k :: r) (ds ++ s) = Some (ds :: g).
Proof.
  intros Hn Hd Hs Hc. destruct ds as [|x ds]; [congruence|].
  cbn [match_here app]. cbn [forallb] in Hd.
  apply andb_true_iff in Hd. destruct Hd as [-> Hd].
  apply (group_greedy k (match_here r) [x] ds s g Hd Hs Hc).
Qed.

Lemma match_star (k : char_class) (r : regex) (w s : text) (g : groups) :
  forallb (in_class k) w = true -> head_not k s ->
  match_here r s = Some g ->
  match_here (Star k :: r) (w ++ s) = Some g.
Proof. intros. cbn [match_here]. apply star_greedy; assumption. Qed.

Lemma match_chr (c : ascii) (r : regex) (s : text) :
  match_here (Chr c :: r) (c :: s) = match_here r s.
Proof. cbn [match_here]. rewrite Ascii.eqb_refl. reflexivity. Qed.

(** The match of a grid-step pattern on a well-formed entry. *)
Lemma match_step_entry (key : string) (w1 w2 ds rest : text) :
  forallb is_space w1 = true -> forallb is_space w2 = true ->
  ds <> [] -> forallb (in_class DigitDot) ds = true ->
  head_not DigitDot rest ->
  match_here (step_re key) (T key ++ w1 ++ ":"%char :: w2 ++ ds ++ rest)
  = Some [ds].
Proof.
  intros H1 H2 Hn Hd Hr. unfold step_re, lit. rewrite match_lit_app.
  apply match_star; [exact H1 | reflexivity |].
  rewrite match_chr.
  apply match_star; [exact H2 | apply head_not_digits; assumption |].
  apply match_group; auto.
Qed.

(** No match of a pattern that starts with [key] begins inside [pre]
    when [key] does not occur there. *)
Lemma no_match_before (key pre : text) (r : regex) (tail : text) :
  not_before key pre ->
  forall a' b', pre = a' ++ b' -> b' <> [] ->
                match_here (map Chr key ++ r) (b' ++ key ++ tail) = None.
Proof.
  unfold not_before. intros Hc a' b' E Hb.
  destruct (match_here (map Chr key ++ r) (b' ++ key ++ tail)) eqn:M;
    [|reflexivity].
  exfalso. apply match_lit_prefix in M. destruct M as [s' [M _]].
  destruct key as [|k0 key].
  - destruct (pre ++ removelast []); discriminate.
  - assert (Hk : k0 :: key <> []) by discriminate.
    pose proof (app_removelast_last k0 Hk) as EL.
    set (K := k0 :: key) in *.
    assert (L : List.length K = S (List.length (removelast K))).
    { rewrite EL at 1. rewrite length_app. simpl. lia. }
    assert (E2 : K ++ s' = (b' ++ removelast K) ++ [last K k0] ++ tail).
    { rewrite <- M. rewrite EL at 1. rewrite <- !app_assoc. reflexivity. }
    destruct (app_prefix_split _ _ _ _ E2) as [w [Hw _]].
    { rewrite length_app. destruct b'; [congruence|].
      cbn [List.length]. lia. }
    assert (contains K (pre ++ removelast K) = true).
    { apply contains_iff. exists a', w.
      rewrite E, <- app_assoc, Hw. reflexivity. }
    congruence.
Qed.

Lemma search_skip (r : regex) (pre s : text) :
  (forall a' b', pre = a' ++ b' -> b' <> [] ->
                 match_here r (b' ++ s) = None) ->
  search r (pre ++ s) = search r s.
Proof.
  induction pre as [|c pre IH]; intros H; [reflexivity|].
  simpl app. rewrite search_next.
  - apply IH. intros a' b' E Hb. apply (H (c :: a') b'); [|exact Hb].
    simpl. rewrite E. reflexivity.
  - apply (H [] (c :: pre)); [reflexivity | discriminate].
Qed.

(** X4.  A grid step written as its key, optional whitespace, a colon,
    optional whitespace and a decimal number is extracted with the value
    of that number: the first such entry of the text is the one used, the
    number runs up to the first character that is neither a digit nor a
    dot, and whatever follows (later entries with the same key included)
    does not matter. *)
Theorem grid_step_extracted (key : string) (pre w1 w2 ds rest : text)
  (x : float)
  (Hkey : In key ["gridStep"; "airGridStep"; "navalGridStep"]%string)
  (Hpre : not_before (T key) pre)
  (Hw1 : forallb is_space w1 = true) (Hw2 : forallb is_space w2 = true)
  (Hds : forallb (in_class DigitDot) ds = true)
  (Hx : py_float ds = Return x)
  (Hrest : head_not DigitDot rest) :
  extract_step (step_re key)
    (pre ++ T key ++ w1 ++ ":"%char :: w2 ++ ds ++ rest)
  = Return (Some x).
Proof.
  assert (Hn : ds <> []) by (intros ->; discriminate Hx).
  unfold extract_step. rewrite search_skip.
  - rewrite (search_here _ _ _
               (match_step_entry key w1 w2 ds rest Hw1 Hw2 Hn Hds Hrest)).
    change (group [ds] 1) with ds. rewrite Hx. reflexivity.
  - intros a' b' E Hb. unfold step_re, lit.
    apply (no_match_before (T key) pre _ _ Hpre a' b' E Hb).
Qed.

Lemma grid_step_extracted_witness :
  extract_step ground_re
    (T "name: kursk" ++ [nl] ++ T "gridStep" ++ T "  " ++ ":"%char :: T " "
     ++ T "50.0" ++ [nl] ++ T "gridStep: 7")
  = Return (Some 50%float).
Proof.
  apply (grid_step_extracted "gridStep" (T "name: kursk" ++ [nl]) (T "  ")
           (T " ") (T "50.0") ([nl] ++ T "gridStep: 7") 50%float);
    try reflexivity.
  simpl. auto.
Defined.

(** The match of the map-size pattern on a well-formed entry. *)
Lemma match_size_entry (w1 w2 w3 w4 w5 w6 ds1 ds2 rest : text) :
  forallb is_space w1 = true -> forallb is_space w2 = true ->
  forallb is_space w3 = true -> forallb is_space w4 = true ->
  forallb is_space w5 = true -> forallb is_space w6 = true ->
  ds1 <> [] -> forallb (in_class DigitDot) ds1 = true ->
  ds2 <> [] -> forallb (in_class DigitDot) ds2 = true ->
  match_here size_re
    (T "mapSize" ++ w1 ++ ":"%char :: w2 ++ "["%char :: w3 ++ ds1 ++ w4
     ++ ","%char :: w5 ++ ds2 ++ w6 ++ "]"%char :: rest)
  = Some [ds1; ds2].
Proof.
  intros H1 H2 H3 H4 H5 H6 N1 D1 N2 D2. unfold size_re, lit.
  rewrite match_lit_app.
  apply match_star; [exact H1 | reflexivity |]. rewrite match_chr.
  apply match_star; [exact H2 | reflexivity |]. rewrite match_chr.
  apply match_star; [exact H3 | apply head_not_digits; assumption |].
  apply match_group; [exact N1 | exact D1 | |].
  { apply head_not_spaces;
      [apply space_not_digit_dot | exact H4 | reflexivity]. }
  apply match_star; [exact H4 | reflexivity |]. rewrite match_chr.
  apply match_star; [exact H5 | apply head_not_digits; assumption |].
  apply match_group; [exact N2 | exact D2 | |].
  { apply head_not_spaces;
      [apply space_not_digit_dot | exact H6 | reflexivity]. }
  apply match_star; [exact H6 | reflexivity |]. rewrite match_chr.
  reflexivity.
Qed.

(** X5.  A map size written as [mapSize], a colon, and two decimal
    numbers between brackets separated by a comma, with optional
    whitespace around every token, is extracted as the pair of the two
    values; the first such entry of the text is the one used. *)
Theorem map_size_extracted
  (pre w1 w2 w3 w4 w5 w6 ds1 ds2 rest : text) (x y : float)
  (Hpre : not_before (T "mapSize") pre)
  (Hw : forallb is_space (w1 ++ w2 ++ w3 ++ w4 ++ w5 ++ w6) = true)
  (Hd1 : forallb (in_class DigitDot) ds1 = true)
  (Hd2 : forallb (in_class DigitDot) ds2 = true)
  (Hx : py_float ds1 = Return x) (Hy : py_float ds2 = Return y) :
  extract_size
    (pre ++ T "mapSize" ++ w1 ++ ":"%char :: w2 ++ "["%char :: w3 ++ ds1
     ++ w4 ++ ","%char :: w5 ++ ds2 ++ w6 ++ "]"%char :: rest)
  = Return (Some (x, y)).
Proof.
  assert (N1 : ds1 <> []) by (intros ->; discriminate Hx).
  assert (N2 : ds2 <> []) by (intros ->; discriminate Hy).
  rewrite !forallb_app, !andb_true_iff in Hw.
  destruct Hw as [H1 [H2 [H3 [H4 [H5 H6]]]]].
  unfold extract_size. rewrite search_skip.
  - rewrite (search_here _ _ _
               (match_size_entry w1 w2 w3 w4 w5 w6 ds1 ds2 rest
                  H1 H2 H3 H4 H5 H6 N1 Hd1 N2 Hd2)).
    change (group [ds1; ds2] 1) with ds1.
    change (group [ds1; ds2] 2) with ds2.
    rewrite Hx. cbn [bind]. rewrite Hy. reflexivity.
  - intros a' b' E Hb. unfold size_re, lit.
    apply (no_match_before (T "mapSize") pre _ _ Hpre a' b' E Hb).
Qed.

Lemma map_size_extracted_witness :
  extract_size (T "level {" ++ [nl] ++ T "mapSize" ++ T " " ++ ":"%char
                :: [] ++ "["%char :: T " " ++ T "4096.0" ++ []
                ++ ","%char :: T " " ++ T "2048" ++ T " " ++ "]"%char
                :: T " }")
  = Return (Some (4096%float, 2048%float)).
Proof.
  apply (map_size_extracted (T "level {" ++ [nl]) (T " ") [] (T " ") []
           (T " ") (T " ") (T "4096.0") (T "2048") (T " }")
           4096%float 2048%float); reflexivity.
Defined.

(** ** Where the records come from *)

Lemma level_record_some (level : level_dir) (r : map_info) :
  level_record level = Some r ->
  is_dir level = true
  /\ exists content,
       level_blk level = Some (Readable content)
       /\ parse_blk_file (Readable content) = Return (Some (data r))
       /\ name r = dir_name level
       /\ localized_name r = clean_name (dir_name level).
Proof.
  unfold level_record. destruct (is_dir level); [|discriminate].
  destruct (level_blk level) as [[|content]|]; try discriminate.
  destruct (parse_blk_file (Readable content)) as [[d|]|] eqn:P;
    try discriminate.
  intros H. inversion H; subst. simpl. split; [reflexivity|].
  exists content. auto.
Qed.

Lemma visit_levels_app (l1 l2 : list level_dir) (maps : dict map_info) :
  visit_levels maps (l1 ++ l2)
  = maps1 <- visit_levels maps l1 ;; visit_levels maps1 l2.
Proof.
  revert maps; induction l1 as [|l l1 IH]; intros maps; simpl.
  - reflexivity.
  - rewrite visit_level_record. simpl. apply IH.
Qed.

Lemma visit_levels_from (levels : list level_dir)
  (maps maps' : dict map_info) (k : text) (info : map_info) :
  visit_levels maps levels = Return maps' ->
  dict_get maps' k = Some info ->
  dict_get maps k = Some info
  \/ exists level, In level levels /\ dir_name level = k
                   /\ level_record level = Some info.
Proof.
  revert maps; induction levels as [|l levels IH]; intros maps H G;
    simpl in H.
  - inversion H; subst. auto.
  - rewrite visit_level_record in H. simpl in H.
    destruct (IH _ H G) as [G' | [level [I [N R]]]].
    + destruct (level_record l) as [r|] eqn:R; [|auto].
      destruct (text_eqb (dir_name l) k) eqn:E.
      * apply text_eqb_eq in E. subst k. rewrite dict_get_set_same in G'.
        inversion G'; subst. right. exists l. simpl. auto.
      * apply text_eqb_neq in E.
        rewrite (dict_get_set_other _ _ _ _ E) in G'. auto.
    + right. exists level. simpl. auto.
Qed.

(** X6.  Every record of the collection comes from a directory entry of
    the levels directory: an entry with the record's name that is a
    directory and has a readable [level.blk], and the fields of the
    record are what the extractor returns for the content of that file.
    Plain files, directories without [level.blk] and unreadable files
    contribute nothing. *)
Theorem record_provenance (levels : option (list level_dir))
  (maps : dict map_info) (identifier : text) (info : map_info)
  (Hrun : extract_all_maps levels = Return maps)
  (Hget : dict_get maps identifier = Some info) :
  exists entries level content,
    levels = Some entries /\ In level entries
    /\ dir_name level = identifier /\ is_dir level = true
    /\ level_blk level = Some (Readable content)
    /\ parse_blk_file (Readable content) = Return (Some (data info)).
Proof.
  destruct levels as [entries|]; simpl in Hrun.
  - destruct (visit_levels_from _ _ _ _ _ Hrun Hget)
      as [G | [level [I [N R]]]]; [discriminate G|].
    apply level_record_some in R.
    destruct R as [D [content [B [P _]]]].
    exists entries, level, content. auto 7.
  - inversion Hrun; subst. discriminate Hget.
Qed.

Lemma record_provenance_witness :
  exists level content,
    In level [mk_level_dir (T "readme.txt") false None;
              mk_level_dir (T "avg_kursk") true
                (Some (Readable (T "gridStep: 50")))]
    /\ dir_name level = T "avg_kursk"
    /\ level_blk level = Some (Readable content)
    /\ content = T "gridStep: 50".
Proof.
  destruct (record_provenance
              (Some [mk_level_dir (T "readme.txt") false None;
                     mk_level_dir (T "avg_kursk") true
                       (Some (Readable (T "gridStep: 50")))])
              _ (T "avg_kursk") _ eq_refl eq_refl)
    as [entries [level [content [E [I [N [D [B P]]]]]]]].
  inversion E; subst entries. exists level, content.
  repeat split; try assumption.
  destruct I as [<- | [<- | []]]; [discriminate N|].
  simpl in B. inversion B. reflexivity.
Defined.

(** X7.  When several directory entries carry the same name, the record
    kept under that name is the one of the last entry that gives a
    record: whatever the earlier entries stored is overwritten. *)
Theorem last_entry_wins (before after : list level_dir) (level : level_dir)
  (r : map_info)
  (Hafter : forall l, In l after -> dir_name l = dir_name level ->
                      level_record l = None)
  (Hr : level_record level = Some r) :
  exists maps,
    extract_all_maps (Some (before ++ level :: after)) = Return maps
    /\ dict_get maps (dir_name level) = Some r.
Proof.
  simpl. rewrite visit_levels_app.
  destruct (visit_levels_returns before []) as [m1 ->]. cbn [bind].
  cbn [visit_levels]. rewrite visit_level_record, Hr. cbn [bind].
  set (m2 := dict_set m1 (dir_name level) r).
  assert (G : dict_get m2 (dir_name level) = Some r)
    by apply dict_get_set_same.
  clearbody m2. clear m1 Hr.
  revert m2 G. induction after as [|l after IH]; intros m2 G.
  - exists m2. auto.
  - cbn [visit_levels]. rewrite visit_level_record. cbn [bind].
    apply IH.
    + intros l' I. apply Hafter. right. exact I.
    + destruct (level_record l) as [r'|] eqn:R; [|exact G].
      rewrite dict_get_set_other; [exact G|].
      intros E. rewrite (Hafter l (or_introl eq_refl) E) in R. discriminate.
Qed.

Lemma last_entry_wins_witness :
  exists maps info,
    extract_all_maps
      (Some [mk_level_dir (T "kursk") true (Some (Readable (T "gridStep: 1")));
             mk_level_dir (T "kursk") true (Some (Readable (T "gridStep: 2")));
             mk_level_dir (T "kursk") true (Some Unreadable)])
    = Return maps
    /\ dict_get maps (T "kursk") = Some info
    /\ ground_grid_step (data info) = Some 2%float.
Proof.
  set (e1 := mk_level_dir (T "kursk") true (Some (Readable (T "gridStep: 1")))).
  set (e2 := mk_level_dir (T "kursk") true (Some (Readable (T "gridStep: 2")))).
  set (e3 := mk_level_dir (T "kursk") true (Some Unreadable)).
  assert (Ha : forall l, In l [e3] -> dir_name l = dir_name e2 ->
                         level_record l = None).
  { intros l [<- | []] _. reflexivity. }
  destruct (last_entry_wins [e1] [e3] e2 _ Ha eq_refl) as [maps [H G]].
  exists maps. eexists. split; [exact H|]. split; [exact G | reflexivity].
Defined.

(** ** The order of the generated code *)

Lemma code_inj (x y : ascii) : code x = code y -> x = y.
Proof.
  unfold code. intros H. apply N2Z.inj in H.
  rewrite <- (ascii_N_embedding x), <- (ascii_N_embedding y), H.
  reflexivity.
Qed.

Lemma text_ltb_trichotomy (a b : text) :
  text_ltb a b = false -> text_ltb b a = false -> a = b.
Proof.
  revert b; induction a as [|x a IH]; intros [|y b]; simpl;
    try discriminate; [reflexivity|].
  intros H1 H2. apply orb_false_iff in H1, H2.
  destruct H1 as [L1 E1], H2 as [L2 E2].
  apply Z.ltb_ge in L1, L2.
  assert (E : code x = code y) by lia.
  rewrite E, Z.eqb_refl in E1, E2. simpl in E1, E2.
  apply code_inj in E. subst. f_equal. apply IH; assumption.
Qed.

Lemma text_ltb_trans (a b c : text) :
  text_ltb a b = true -> text_ltb b c = true -> text_ltb a c = true.
Proof.
  revert b c; induction a as [|x a IH]; intros [|y b] [|z c]; simpl;
    try discriminate; try reflexivity.
  intros H1 H2. apply orb_true_iff in H1, H2. apply orb_true_iff.
  destruct H1 as [H1 | H1], H2 as [H2 | H2];
    try (apply andb_true_iff in H1; destruct H1 as [E1 H1];
         apply Z.eqb_eq in E1);
    try (apply andb_true_iff in H2; destruct H2 as [E2 H2];
         apply Z.eqb_eq in E2);
    try apply Z.ltb_lt in H1; try apply Z.ltb_lt in H2.
  - left. apply Z.ltb_lt. lia.
  - left. apply Z.ltb_lt. lia.
  - left. apply Z.ltb_lt. lia.
  - right. apply andb_true_iff. split; [apply Z.eqb_eq; lia|].
    eapply IH; eassumption.
Qed.

Lemma text_leb_trans (a b c : text) :
  text_leb a b = true -> text_leb b c = true -> text_leb a c = true.
Proof.
  unfold text_leb. rewrite !negb_true_iff. intros H1 H2.
  destruct (text_ltb c a) eqn:H3; [|reflexivity].
  destruct (text_ltb a b) eqn:H4.
  - rewrite (text_ltb_trans _ _ _ H3 H4) in H2. discriminate.
  - rewrite (text_ltb_trichotomy _ _ H4 H1) in H3. congruence.
Qed.

Lemma text_leb_antisym (a b : text) :
  text_leb a b = true -> text_leb b a = true -> a = b.
Proof.
  unfold text_leb. rewrite !negb_true_iff. intros H1 H2.
  apply text_ltb_trichotomy; assumption.
Qed.

Lemma text_leb_refl (a : text) : text_leb a a = true.
Proof.
  unfold text_leb. destruct (text_ltb a a) eqn:E; [|reflexivity].
  rewrite (text_ltb_asym _ _ E) in E. discriminate.
Qed.

Lemma insert_sorted_perm {V} (p : text * V) (l : list (text * V)) :
  Permutation (insert_sorted p l) (p :: l).
Proof.
  induction l as [|q l IH]; simpl; [reflexivity|].
  destruct (text_leb (fst p) (fst q)); [reflexivity|].
  rewrite IH. apply perm_swap.
Qed.

Lemma sorted_items_perm {V} (d : dict V) : Permutation (sorted_items d) d.
Proof.
  induction d as [|p d IH]; simpl; [reflexivity|].
  rewrite insert_sorted_perm. constructor. exact IH.
Qed.

Lemma ascending_head {V} (p : text * V) (l : list (text * V)) :
  ascending (p :: l) ->
  forall q, In q (p :: l) -> text_leb (fst p) (fst q) = true.
Proof.
  revert p; induction l as [|r l IH]; intros p A q I.
  - destruct I as [<- | []]. apply text_leb_refl.
  - inversion A as [| |p' r' l' Hpr Hl]; subst.
    destruct I as [<- | I]; [apply text_leb_refl|].
    eapply text_leb_trans; [exact Hpr | apply IH; assumption].
Qed.

Lemma ascending_tail {V} (p : text * V) (l : list (text * V)) :
  ascending (p :: l) -> ascending l.
Proof. intros A. inversion A; subst; [constructor | assumption]. Qed.

(** Two ascending lists with the same items and distinct keys are the
    same list. *)
Lemma ascending_unique {V} (l1 l2 : list (text * V)) :
  ascending l1 -> ascending l2 -> NoDup (keys l1) -> Permutation l1 l2 ->
  l1 = l2.
Proof.
  revert l2; induction l1 as [|p l1 IH]; intros l2 A1 A2 N P.
  - apply Permutation_nil in P. subst. reflexivity.
  - destruct l2 as [|q l2].
    { apply Permutation_sym, Permutation_nil in P. discriminate. }
    assert (Iq : In q (p :: l1))
      by (eapply Permutation_in; [apply Permutation_sym; exact P | left; auto]).
    assert (Ip : In p (q :: l2))
      by (eapply Permutation_in; [exact P | left; auto]).
    assert (E : fst p = fst q).
    { apply text_leb_antisym.
      - apply (ascending_head p l1 A1 q Iq).
      - apply (ascending_head q l2 A2 p Ip). }
    assert (p = q).
    { destruct Iq as [Iq | Iq]; [exact Iq|]. exfalso.
      unfold keys in N. simpl in N. inversion N as [|x xs Hx _]; subst.
      apply Hx. rewrite E. apply in_map. exact Iq. }
    subst q. f_equal. apply IH.
    + eapply ascending_tail; exact A1.
    + eapply ascending_tail; exact A2.
    + unfold keys in *. simpl in N. inversion N; assumption.
    + eapply Permutation_cons_inv; exact P.
Qed.

(** X8.  The generator writes one block per record of the collection, in
    ascending order of the names (code points compared from the left, a
    prefix before its extensions): the list it walks is an ascending
    rearrangement of the items of the dictionary. *)
Theorem rust_blocks_sorted (maps : dict map_info) :
  Permutation (sorted_items maps) maps
  /\ ascending (sorted_items maps)
  /\ generate_rust_code maps = join [nl] (map rust_entry (sorted_items maps))
  /\ List.length (sorted_items maps) = List.length maps.
Proof.
  split; [apply sorted_items_perm|]. split; [apply sorted_items_ascending|].
  split; [reflexivity|]. apply Permutation_length, sorted_items_perm.
Qed.

Lemma visit_levels_items (levels : list level_dir) (maps : dict map_info) :
  NoDup (keys maps ++ map dir_name levels) ->
  visit_levels maps levels = Return (maps ++ level_items levels).
Proof.
  revert maps; induction levels as [|l levels IH]; intros maps N; simpl.
  - rewrite app_nil_r. reflexivity.
  - rewrite visit_level_record. cbn [bind].
    unfold level_items in *. cbn [flat_map].
    destruct (level_record l) as [r|] eqn:R.
    + rewrite dict_set_fresh.
      * rewrite IH; [rewrite <- app_assoc; reflexivity|].
        unfold keys. rewrite map_app. simpl. rewrite <- app_assoc. exact N.
      * apply NoDup_remove_2 in N. intros I. apply N.
        apply in_or_app. left. exact I.
    + simpl. apply IH. apply NoDup_remove_1 in N. exact N.
Qed.

Lemma level_items_perm (l1 l2 : list level_dir) :
  Permutation l1 l2 -> Permutation (level_items l1) (level_items l2).
Proof.
  unfold level_items. induction 1; simpl.
  - constructor.
  - apply Permutation_app_head. assumption.
  - rewrite !app_assoc. apply Permutation_app_tail, Permutation_app_comm.
  - etransitivity; eassumption.
Qed.

(** X9.  With distinct directory names, the generated code does not
    depend on the order in which the directories are listed: listing
    them in another order gives the same text. *)
Theorem rust_code_order_independent (entries1 entries2 : list level_dir)
  (maps1 maps2 : dict map_info)
  (Hnames : NoDup (map dir_name entries1))
  (Hperm : Permutation entries1 entries2)
  (H1 : extract_all_maps (Some entries1) = Return maps1)
  (H2 : extract_all_maps (Some entries2) = Return maps2) :
  generate_rust_code maps1 = generate_rust_code maps2.
Proof.
  assert (Hnames2 : NoDup (map dir_name entries2)).
  { eapply Permutation_NoDup; [|exact Hnames].
    apply Permutation_map. exact Hperm. }
  assert (K1 := extract_all_maps_keys _ _ H1).
  simpl in H1, H2.
  rewrite (visit_levels_items entries1 [] Hnames) in H1.
  rewrite (visit_levels_items entries2 [] Hnames2) in H2.
  inversion H1; inversion H2; subst. simpl in *.
  unfold generate_rust_code. f_equal. f_equal.
  apply ascending_unique.
  - apply sorted_items_ascending.
  - apply sorted_items_ascending.
  - eapply Permutation_NoDup; [|exact K1].
    apply Permutation_map, Permutation_sym, sorted_items_perm.
  - rewrite !sorted_items_perm. apply level_items_perm. exact Hperm.
Qed.

Lemma rust_code_order_independent_witness :
  exists maps1 maps2,
    extract_all_maps
      (Some [mk_level_dir (T "zulu") true (Some (Readable (T "gridStep: 5")));
             mk_level_dir (T "alpha") true (Some (Readable []))])
    = Return maps1
    /\ extract_all_maps
         (Some [mk_level_dir (T "alpha") true (Some (Readable []));
                mk_level_dir (T "zulu") true
                  (Some (Readable (T "gridStep: 5")))])
       = Return maps2
    /\ maps1 <> maps2
    /\ generate_rust_code maps1 = generate_rust_code maps2.
Proof.
  set (zulu := mk_level_dir (T "zulu") true
                 (Some (Readable (T "gridStep: 5")))).
  set (alpha := mk_level_dir (T "alpha") true (Some (Readable []))).
  eexists. eexists. split; [reflexivity|]. split; [reflexivity|].
  split; [discriminate|].
  apply (rust_code_order_independent [zulu; alpha] [alpha; zulu]);
    [ | apply perm_swap | reflexivity | reflexivity].
  repeat (apply NoDup_cons; [cbv; intuition discriminate|]).
  apply NoDup_nil.
Defined.

(** ** The display name *)

Lemma replace_char (o n : ascii) (s : text) :
  replace [o] [n] s = map (fun c => if Ascii.eqb o c then n else c) s.
Proof.
  unfold replace. induction s as [|c s IH]; [reflexivity|].
  cbn [replace_from starts_with map List.length Nat.sub app].
  destruct (Ascii.eqb o c); cbn [andb]; rewrite IH; reflexivity.
Qed.

Lemma replace_from_length (old : text) (skip : nat) (s : text) :
  (List.length (replace_from old [] skip s) <= List.length s)%nat.
Proof.
  revert skip; induction s as [|c s IH]; intros skip; [simpl; lia|].
  cbn [replace_from]. destruct skip as [|n].
  - destruct (starts_with old (c :: s)); cbn [app List.length].
    + specialize (IH (List.length old - 1)%nat). lia.
    + specialize (IH O). lia.
  - cbn [List.length]. specialize (IH n). lia.
Qed.

Lemma ascii_forall (s : text) :
  forallb is_ascii s = true <-> Forall (fun c => is_ascii c = true) s.
Proof.
  rewrite forallb_forall, Forall_forall. tauto.
Qed.

Lemma title_char_ascii (c : ascii) :
  is_ascii c = true -> title_char c = [upper_char c].
Proof.
  unfold is_ascii, title_char. intros H. apply Z.ltb_lt in H.
  replace (code c =? 223) with false by (symmetry; apply Z.eqb_neq; lia).
  reflexivity.
Qed.

Lemma title_from_length (b : bool) (s : text) :
  Forall (fun c => is_ascii c = true) s ->
  List.length (title_from b s) = List.length s.
Proof.
  intros H. revert b; induction H as [|c s Hc Hs IH]; intros b;
    [reflexivity|].
  cbn [title_from]. rewrite length_app, IH, (title_char_ascii c Hc).
  destruct b; reflexivity.
Qed.

Lemma case_keeps_underscore (c : ascii) :
  (In "_"%char (title_char c) -> c = "_"%char)
  /\ (lower_char c = "_"%char -> c = "_"%char).
Proof.
  destruct c as [[] [] [] [] [] [] [] []]; split; vm_compute; intros H;
    repeat match goal with
           | H : _ \/ _ |- _ => destruct H as [H | H]
           end;
    first [reflexivity | discriminate H | contradiction].
Qed.

Lemma title_from_in (b : bool) (s : text) :
  In "_"%char (title_from b s) -> In "_"%char s.
Proof.
  revert b; induction s as [|c s IH]; intros b; cbn [title_from];
    [auto|].
  intros H. apply in_app_or in H. destruct H as [H | H].
  - left. destruct b.
    + destruct H as [H | []]. apply case_keeps_underscore in H. exact H.
    + apply case_keeps_underscore in H. exact H.
  - right. eapply IH. exact H.
Qed.

Lemma clean_name_no_underscore (s : text) : ~ In "_"%char (clean_name s).
Proof.
  unfold clean_name, title. intros H. apply title_from_in in H.
  change (T "_") with ["_"%char] in H. change (T " ") with [" "%char] in H.
  rewrite replace_char in H. apply in_map_iff in H.
  destruct H as [c [E _]]. destruct (Ascii.eqb "_" c) eqn:Q.
  - discriminate E.
  - subst c. discriminate Q.
Qed.

Lemma replace_from_in (old : text) (skip : nat) (s : text) (c : ascii) :
  In c (replace_from old [] skip s) -> In c s.
Proof.
  revert skip; induction s as [|x s IH]; intros skip H; [exact H|].
  cbn [replace_from] in H. destruct skip as [|n].
  - destruct (starts_with old (x :: s)); cbn [app] in H.
    + right. eapply IH. exact H.
    + destruct H as [H | H]; [left; exact H | right; eapply IH; exact H].
  - right. eapply IH. exact H.
Qed.

(** The name before it is put in title case keeps to the ASCII
    characters of the identifier. *)
Lemma spaced_name_ascii (map_name : text) :
  forallb is_ascii map_name = true ->
  Forall (fun c => is_ascii c = true)
         (replace (T "_") (T " ") (replace (T "avg_") [] map_name)).
Proof.
  intros H. rewrite forallb_forall in H. apply Forall_forall. intros c I.
  change (T "_") with ["_"%char] in I. change (T " ") with [" "%char] in I.
  rewrite replace_char in I. apply in_map_iff in I.
  destruct I as [x [E I]]. destruct (Ascii.eqb "_" x).
  - subst c. reflexivity.
  - subst c. apply H. eapply replace_from_in. exact I.
Qed.

(** X10.  A display name never contains an underscore and, for an ASCII
    identifier, it is never longer than the identifier it is derived
    from. *)
Theorem display_name_shape (map_name : text) :
  ~ In "_"%char (clean_name map_name)
  /\ (forallb is_ascii map_name = true ->
      (List.length (clean_name map_name) <= List.length map_name)%nat).
Proof.
  split; [apply clean_name_no_underscore|]. intros Hascii.
  unfold clean_name, title.
  rewrite (title_from_length _ _ (spaced_name_ascii map_name Hascii)).
  change (T "_") with ["_"%char]. change (T " ") with [" "%char].
  rewrite replace_char, length_map.
  apply replace_from_length.
Qed.

Lemma display_name_shape_witness :
  ~ In "_"%char (clean_name (T "avg_port_novorossiysk"))
  /\ (List.length (clean_name (T "avg_port_novorossiysk")) <= 21)%nat.
Proof.
  destruct (display_name_shape (T "avg_port_novorossiysk")) as [N L].
  split; [exact N | exact (L eq_refl)].
Defined.

Lemma case_idempotent (c : ascii) :
  is_ascii c = true ->
  upper_char (upper_char c) = upper_char c
  /\ lower_char (lower_char c) = lower_char c
  /\ is_cased (upper_char c) = is_cased c
  /\ is_cased (lower_char c) = is_cased c
  /\ is_ascii (upper_char c) = true
  /\ is_ascii (lower_char c) = true.
Proof.
  destruct c as [[] [] [] [] [] [] [] []]; intros H;
    first [discriminate H | repeat split].
Qed.

Lemma title_from_idempotent (b : bool) (s : text) :
  Forall (fun c => is_ascii c = true) s ->
  title_from b (title_from b s) = title_from b s.
Proof.
  intros H. revert b; induction H as [|c s Hc Hs IH]; intros b;
    [reflexivity|].
  destruct (case_idempotent c Hc) as [U [L [CU [CL [AU AL]]]]].
  cbn [title_from]. rewrite (title_char_ascii c Hc). destruct b.
  - cbn [app title_from]. rewrite L, CL, IH. reflexivity.
  - cbn [app title_from]. rewrite (title_char_ascii _ AU), U, CU, IH.
    reflexivity.
Qed.

Lemma map_id_absent (o n : ascii) (s : text) :
  ~ In o s -> map (fun c => if Ascii.eqb o c then n else c) s = s.
Proof.
  induction s as [|c s IH]; intros H; simpl; [reflexivity|].
  destruct (Ascii.eqb o c) eqn:E.
  - apply Ascii.eqb_eq in E. subst. exfalso. apply H. left. reflexivity.
  - rewrite IH; [reflexivity|]. intros I. apply H. right. exact I.
Qed.

(** X11.  For an ASCII identifier, deriving a display name is idempotent:
    the display name used as an identifier gives itself. *)
Theorem display_name_idempotent (map_name : text)
  (Hascii : forallb is_ascii map_name = true) :
  clean_name (clean_name map_name) = clean_name map_name.
Proof.
  pose proof (clean_name_no_underscore map_name) as N.
  pose proof (spaced_name_ascii map_name Hascii) as A0.
  set (t := clean_name map_name) in *.
  assert (A : replace (T "avg_") [] t = t).
  { apply replace_from_absent.
    destruct (contains (T "avg_") t) eqn:C; [|reflexivity].
    exfalso. apply N. apply contains_iff in C. destruct C as [a [b ->]].
    apply in_or_app. right. simpl. auto. }
  unfold clean_name at 1. rewrite A.
  change (T "_") with ["_"%char]. change (T " ") with [" "%char].
  rewrite replace_char, (map_id_absent _ _ _ N).
  unfold t, clean_name, title. apply title_from_idempotent. exact A0.
Qed.

Lemma display_name_idempotent_witness :
  clean_name (clean_name (T "avg_port_novorossiysk"))
  = clean_name (T "avg_port_novorossiysk").
Proof.
  exact (display_name_idempotent (T "avg_port_novorossiysk") eq_refl).
Defined.

(** ** The collection and the JSON document *)

Lemma level_items_keys (levels : list level_dir) :
  keys (level_items levels) = map dir_name (filter contributes levels).
Proof.
  unfold keys, level_items, contributes.
  induction levels as [|l levels IH]; simpl; [reflexivity|].
  rewrite map_app, IH. destruct (level_record l); reflexivity.
Qed.

(** X12.  With distinct directory names, the collection holds one record
    per contributing directory, in the order in which the directories are
    listed, and the JSON document lists the records in that order. *)
Theorem collection_in_listing_order (entries : list level_dir)
  (maps : dict map_info)
  (Hnames : NoDup (map dir_name entries))
  (Hrun : extract_all_maps (Some entries) = Return maps) :
  maps = level_items entries
  /\ json_order maps = map dir_name (filter contributes entries)
  /\ json_dump maps
     = match maps with
       | [] => T "{}"
       | _ :: _ =>
           T "{" ++ newline_indent 1
           ++ join (T "," ++ newline_indent 1)
                (map (fun kv => json_string (fst kv) ++ T ": "
                                ++ json_encode 1 (info_value (snd kv))) maps)
           ++ newline_indent 0 ++ T "}"
       end.
Proof.
  simpl in Hrun. rewrite (visit_levels_items entries [] Hnames) in Hrun.
  inversion Hrun; subst. simpl.
  split; [reflexivity|]. split; [apply level_items_keys|].
  apply json_dump_order.
Qed.

Lemma collection_in_listing_order_witness :
  exists maps,
    extract_all_maps
      (Some [mk_level_dir (T "zulu") true (Some (Readable []));
             mk_level_dir (T "notes") false None;
             mk_level_dir (T "alpha") true (Some (Readable []))])
    = Return maps
    /\ json_order maps = [T "zulu"; T "alpha"].
Proof.
  eexists. split; [reflexivity|].
  set (entries := [mk_level_dir (T "zulu") true (Some (Readable []));
                   mk_level_dir (T "notes") false None;
                   mk_level_dir (T "alpha") true (Some (Readable []))]).
  assert (N : NoDup (map dir_name entries)).
  { repeat (apply NoDup_cons; [cbv; intuition discriminate|]).
    apply NoDup_nil. }
  destruct (collection_in_listing_order entries _ N eq_refl) as [_ [H _]].
  exact H.
Defined.

(** ** [main] *)





(** ** The statistics *)

Lemma dict_get_in_values {V} (d : dict V) (k : text) (v : V) :
  dict_get d k = Some v -> In v (values d).
Proof.
  unfold values. induction d as [|[k' v'] d IH]; simpl; [discriminate|].
  destruct (text_eqb k' k); [intros H; inversion H; auto | auto].
Qed.

Lemma has_mode_in (mode : string) (m : map_info) :
  has_mode mode m = true <-> In (T mode) (game_modes (data m)).
Proof. apply existsb_text_eqb. Qed.

(** X15.  In the statistics of [main], a record that has an air grid step
    is counted among the air maps and one that has a naval grid step
    among the naval maps; a record is in none of the three lists exactly
    when its game modes are [["unknown"]]; no count exceeds the number of
    records. *)
Theorem statistics_membership (levels : option (list level_dir))
  (maps : dict map_info) (identifier : text) (info : map_info)
  (Hrun : extract_all_maps levels = Return maps)
  (Hget : dict_get maps identifier = Some info) :
  (air_grid_step (data info) <> None -> In info (air_maps maps))
  /\ (naval_grid_step (data info) <> None -> In info (naval_maps maps))
  /\ (game_modes (data info) = [T "unknown"]
      <-> ~ In info (ground_maps maps) /\ ~ In info (air_maps maps)
          /\ ~ In info (naval_maps maps))
  /\ (List.length (ground_maps maps) <= List.length maps)%nat
  /\ (List.length (air_maps maps) <= List.length maps)%nat
  /\ (List.length (naval_maps maps) <= List.length maps)%nat.
Proof.
  assert (V : In info (values maps)) by (eapply dict_get_in_values; eauto).
  assert (P : exists content,
             parse_blk_file (Readable content) = Return (Some (data info))).
  { destruct levels as [entries|]; simpl in Hrun.
    - destruct (visit_levels_from _ _ _ _ _ Hrun Hget)
        as [G | [level [_ [_ R]]]]; [discriminate G|].
      apply level_record_some in R. destruct R as [_ [c [_ [Pc _]]]]. eauto.
    - inversion Hrun; subst. discriminate Hget. }
  destruct P as [content P].
  apply parse_blk_file_some, parse_blk_text_return in P.
  destruct P as [_ [_ [Pa [Pn Pm]]]].
  assert (L : forall f, (List.length (filter f (values maps))
                         <= List.length maps)%nat).
  { intros f. unfold values.
    rewrite <- (length_map snd maps). apply filter_length_le. }
  unfold ground_maps, air_maps, naval_maps.
  split; [|split; [|split; [|repeat split; apply L]]].
  - intros Hs. apply filter_In. split; [exact V|]. apply has_mode_in.
    rewrite <- Pm. apply detect_modes_air.
    destruct (air_grid_step (data info)); [|congruence].
    apply extract_step_present in Pa. destruct Pa as [m Pa].
    apply search_lit_contains, contains_lower in Pa.
    eapply contains_trans; [|exact Pa]. reflexivity.
  - intros Hs. apply filter_In. split; [exact V|]. apply has_mode_in.
    rewrite <- Pm. apply detect_modes_naval.
    destruct (naval_grid_step (data info)); [|congruence].
    apply extract_step_present in Pn. destruct Pn as [m Pn].
    apply search_lit_contains, contains_lower in Pn.
    eapply contains_trans; [|exact Pn]. reflexivity.
  - split.
    + intros U.
      assert (X : forall mode, In mode ["ground"; "air"; "naval"]%string ->
                  ~ In info (filter (has_mode mode) (values maps))).
      { intros mode Hm I. apply filter_In in I. destruct I as [_ I].
        unfold has_mode in I. rewrite U in I.
        destruct Hm as [<- | [<- | [<- | []]]]; discriminate I. }
      repeat split; apply X; simpl; auto.
    + intros [Ng [Na Nn]].
      assert (Fg : has_mode "ground" info = false).
      { destruct (has_mode "ground" info) eqn:E; [|reflexivity].
        exfalso. apply Ng. apply filter_In. auto. }
      assert (Fa : has_mode "air" info = false).
      { destruct (has_mode "air" info) eqn:E; [|reflexivity].
        exfalso. apply Na. apply filter_In. auto. }
      assert (Fn : has_mode "naval" info = false).
      { destruct (has_mode "naval" info) eqn:E; [|reflexivity].
        exfalso. apply Nn. apply filter_In. auto. }
      unfold has_mode in Fg, Fa, Fn. rewrite <- Pm in *.
      rewrite detect_modes_cases in *.
      destruct (contains (T "ground") (lower content)
                || contains (T "tank") (lower content)),
        (contains (T "air") (lower content)),
        (contains (T "naval") (lower content));
        try discriminate Fg; try discriminate Fa; try discriminate Fn.
      reflexivity.
Qed.

Lemma statistics_membership_witness :
  exists maps info,
    extract_all_maps
      (Some [mk_level_dir (T "air_ruhr") true
               (Some (Readable (T "airGridStep: 100")));
             mk_level_dir (T "avg_kursk") true (Some (Readable []))])
    = Return maps
    /\ dict_get maps (T "air_ruhr") = Some info
    /\ In info (air_maps maps)
    /\ statistics maps = (0%nat, 1%nat, 0%nat).
Proof.
  eexists. eexists. split; [reflexivity|]. split; [reflexivity|].
  split; [|reflexivity].
  refine (proj1 (statistics_membership
                   (Some [mk_level_dir (T "air_ruhr") true
                            (Some (Readable (T "airGridStep: 100")));
                          mk_level_dir (T "avg_kursk") true
                            (Some (Readable []))])
                   _ (T "air_ruhr") _ eq_refl eq_refl) _).
  discriminate.
Defined.

(** ** The installation directory *)

Lemma find_first {A} (f : A -> bool) (l : list A) (x : A) :
  find f l = Some x
  <-> exists before after,
        l = before ++ x :: after /\ f x = true
        /\ forall y, In y before -> f y = false.
Proof.
  induction l as [|a l IH]; simpl.
  - split; [discriminate|]. intros [b [c [E _]]]. destruct b; discriminate.
  - destruct (f a) eqn:F; split.
    + intros H. inversion H; subst. exists [], l. repeat split; auto.
      intros y [].
    + intros [[|b before] [after [E [Fx Hb]]]]; simpl in E; inversion E; subst.
      * reflexivity.
      * rewrite (Hb b (or_introl eq_refl)) in F. discriminate.
    + intros H. apply IH in H. destruct H as [before [after [-> [Fx Hb]]]].
      exists (a :: before), after. repeat split; auto.
      intros y [<- | I]; auto.
    + intros [[|b before] [after [E [Fx Hb]]]]; simpl in E; inversion E; subst.
      * congruence.
      * apply IH. exists before, after. repeat split; auto.
        intros y I. apply Hb. right. exact I.
Qed.

(** X16.  [find_wt_installation] returns the first of its candidate
    directories that exists, in the order of the list, and [None] exactly
    when none exists.  Every candidate of the parser is a candidate of
    the image checker, so whenever the parser finds an installation the
    checker's function finds one too. *)
Theorem installation_found (exists_ : text -> bool) (home_games : text) :
  (forall path,
     find_wt_installation exists_ home_games = Some path
     <-> exists before after,
           common_paths home_games = before ++ path :: after
           /\ exists_ path = true
           /\ forall other, In other before -> exists_ other = false)
  /\ (find_wt_installation exists_ home_games = None
      <-> forall path, In path (common_paths home_games) ->
                       exists_ path = false)
  /\ (forall path,
        find_wt_installation exists_ home_games = Some path ->
        exists other,
          checker_find_wt_installation exists_ home_games = Some other
          /\ exists_ other = true
          /\ In other (checker_common_paths home_games)).
Proof.
  unfold find_wt_installation, checker_find_wt_installation.
  split; [intros path; apply find_first|]. split.
  - split.
    + intros H path I. eapply find_none; eassumption.
    + intros H. destruct (find exists_ (common_paths home_games)) eqn:E;
        [|reflexivity].
      apply find_some in E. destruct E as [I E]. rewrite (H _ I) in E.
      discriminate.
  - intros path H. apply find_some in H. destruct H as [I E].
    destruct (find exists_ (checker_common_paths home_games)) as [other|]
      eqn:F.
    + exists other. apply find_some in F. tauto.
    + exfalso.
      assert (J : In path (checker_common_paths home_games)).
      { simpl in I. simpl. tauto. }
      rewrite (find_none _ _ F _ J) in E. discriminate.
Qed.

(** ** The comparison of the images *)

Lemma compare_images_spec (sha256 : list Byte.byte -> text) (api_hash : text)
  (api_size : nat) (images : list image_file) (path : text) :
  (In path (fst (compare_images sha256 api_hash api_size images))
   <-> exists data, In (path, Some data) images /\ sha256 data = api_hash)
  /\ (In path (snd (compare_images sha256 api_hash api_size images))
      <-> exists data, In (path, Some data) images
                       /\ sha256 data <> api_hash
                       /\ List.length data = api_size).
Proof.
  induction images as [|[p file] images [IH1 IH2]]; simpl.
  - split; split; try tauto; intros [d [[] _]].
  - destruct (compare_images sha256 api_hash api_size images)
      as [matches same_size]. simpl in IH1, IH2.
    assert (Hrest : forall (P : list Byte.byte -> Prop),
              (exists data, In (path, Some data) images /\ P data) ->
              exists data, ((p, file) = (path, Some data)
                            \/ In (path, Some data) images) /\ P data).
    { intros P [d [I H]]. exists d. auto. }
    destruct file as [data|]; simpl.
    + destruct (text_eqb (sha256 data) api_hash) eqn:E; simpl.
      * apply text_eqb_eq in E. split; split.
        -- intros [<- | I]; [exists data; auto|].
           apply IH1 in I. apply Hrest with (P := fun d => sha256 d = api_hash).
           exact I.
        -- intros [d [[X | I] H]]; [inversion X; auto|].
           right. apply IH1. eauto.
        -- intros I. apply IH2 in I.
           apply Hrest with (P := fun d => sha256 d <> api_hash
                                           /\ List.length d = api_size).
           exact I.
        -- intros [d [[X | I] [H L]]]; [inversion X; subst; congruence|].
           apply IH2. eauto.
      * apply text_eqb_neq in E.
        destruct (Nat.eqb (List.length data) api_size) eqn:L; simpl;
          split; split.
        -- intros I. apply IH1 in I.
           apply Hrest with (P := fun d => sha256 d = api_hash). exact I.
        -- intros [d [[X | I] H]]; [inversion X; subst; congruence|].
           apply IH1. eauto.
        -- intros [<- | I].
           ++ exists data. apply Nat.eqb_eq in L. auto.
           ++ apply IH2 in I.
              apply Hrest with (P := fun d => sha256 d <> api_hash
                                              /\ List.length d = api_size).
              exact I.
        -- intros [d [[X | I] [H Ld]]]; [inversion X; auto|].
           right. apply IH2. eauto.
        -- intros I. apply IH1 in I.
           apply Hrest with (P := fun d => sha256 d = api_hash). exact I.
        -- intros [d [[X | I] H]]; [inversion X; subst; congruence|].
           apply IH1. eauto.
        -- intros I. apply IH2 in I.
           apply Hrest with (P := fun d => sha256 d <> api_hash
                                           /\ List.length d = api_size).
           exact I.
        -- intros [d [[X | I] [H Ld]]].
           ++ inversion X; subst. apply Nat.eqb_neq in L. congruence.
           ++ apply IH2. eauto.
    + split; split.
      * intros I. apply IH1 in I.
        apply Hrest with (P := fun d => sha256 d = api_hash). exact I.
      * intros [d [[X | I] H]]; [discriminate X|]. apply IH1. eauto.
      * intros I. apply IH2 in I.
        apply Hrest with (P := fun d => sha256 d <> api_hash
                                        /\ List.length d = api_size).
        exact I.
      * intros [d [[X | I] H]]; [discriminate X|]. apply IH2. eauto.
Qed.

(** X17.  When the image checker reaches the comparison, a readable file
    with the bytes of the API image is always among the matches; the
    matches are exactly the readable files whose digest is that of the
    API image, and the files reported for their size are exactly the
    readable files of the same length with another digest; an unreadable
    file is in neither list.  The comparison is not reached without an
    API image, with an empty one, or without the installation
    directory. *)
Theorem image_comparison (sha256 : list Byte.byte -> text)
  (api_image : option (list Byte.byte)) (wt_exists : bool)
  (images : list image_file) (matches same_size : list text)
  (Hrun : checker_main sha256 api_image wt_exists images
          = Some (matches, same_size)) :
  exists api,
    api_image = Some api /\ api <> [] /\ wt_exists = true
    /\ (forall path, In (path, Some api) images -> In path matches)
    /\ (forall path,
          In path matches
          <-> exists data, In (path, Some data) images
                           /\ sha256 data = sha256 api)
    /\ (forall path,
          In path same_size
          <-> exists data, In (path, Some data) images
                           /\ sha256 data <> sha256 api
                           /\ List.length data = List.length api).
Proof.
  unfold checker_main in Hrun.
  destruct api_image as [[|b api]|]; try discriminate.
  destruct wt_exists; [|discriminate]. inversion Hrun as [E]. clear Hrun.
  exists (b :: api). split; [reflexivity|]. split; [discriminate|].
  split; [reflexivity|].
  assert (S : forall path,
            (In path matches
             <-> exists data, In (path, Some data) images
                              /\ sha256 data = sha256 (b :: api))
            /\ (In path same_size
                <-> exists data, In (path, Some data) images
                                 /\ sha256 data <> sha256 (b :: api)
                                 /\ List.length data
                                    = List.length (b :: api))).
  { intros path.
    pose proof (compare_images_spec sha256 (sha256 (b :: api))
                  (List.length (b :: api)) images path) as X.
    cbn [List.length] in X. rewrite E in X. exact X. }
  split; [|split].
  - intros path I. apply (proj1 (S path)). eauto.
  - intros path. apply (proj1 (S path)).
  - intros path. apply (proj2 (S path)).
Qed.

Lemma image_comparison_witness :
  exists matches same_size,
    checker_main (map ascii_of_byte) (Some [Byte.x01; Byte.x02]) true
      [(T "a.png", Some [Byte.x01; Byte.x02]);
       (T "b.png", None);
       (T "c.png", Some [Byte.x03; Byte.x04])]
    = Some (matches, same_size)
    /\ In (T "a.png") matches
    /\ In (T "c.png") same_size.
Proof.
  eexists. eexists. split; [reflexivity|].
  destruct (image_comparison (map ascii_of_byte) (Some [Byte.x01; Byte.x02])
              true
              [(T "a.png", Some [Byte.x01; Byte.x02]);
               (T "b.png", None);
               (T "c.png", Some [Byte.x03; Byte.x04])]
              _ _ eq_refl)
    as [api [E [_ [_ [H1 [_ H3]]]]]].
  inversion E; subst api. split.
  - apply H1. simpl. auto.
  - apply H3. exists [Byte.x03; Byte.x04]. simpl.
    repeat split; [auto | discriminate].
Defined.
